(** * Discord voice support: capture, WAV encoding, transcription filtering

    A shallow embedding of [src/agents/tools/voice-tool.ts] (the tool layer
    and the [discord/voice] module it drives) and the properties of its
    specification.

    Conventions.
    - A JavaScript string is the list of its UTF-16 code units ([jsstring]);
      [length] is therefore the source's [.length].
    - A [Buffer] is a list of bytes, each a [Z] in [0, 256).
    - Identifiers (guild, user, channel, token) are [string]s.
    - The [Map]s of the manager are [gmap]s; the [Set]s stored in
      [activeListeners] are objects that closures keep a reference to, so
      they live in a store and the map holds their locations. *)

From Stdlib Require Import ZArith QArith Qround Lia.
From stdpp Require Import gmap strings list fin_maps.

Local Open Scope Z_scope.

(** ** JavaScript strings *)

Module JsString.

Definition jsstring := list Z.

(** ECMAScript [LineTerminator]. *)
Definition isLineTerminator (c : Z) : bool :=
  (c =? 0x000A) || (c =? 0x000D) || (c =? 0x2028) || (c =? 0x2029).

(** ECMAScript [WhiteSpace]: TAB, VT, FF, SP, NBSP, ZWNBSP and category Zs. *)
Definition isWhiteSpace (c : Z) : bool :=
  (c =? 0x0009) || (c =? 0x000B) || (c =? 0x000C) || (c =? 0x0020) ||
  (c =? 0x00A0) || (c =? 0xFEFF) || (c =? 0x1680) ||
  ((0x2000 <=? c) && (c <=? 0x200A)) ||
  (c =? 0x202F) || (c =? 0x205F) || (c =? 0x3000).

(** The class [\s], which is also what [String.prototype.trim] strips. *)
Definition isSpace (c : Z) : bool := isWhiteSpace c || isLineTerminator c.

Fixpoint trimStart (s : jsstring) : jsstring :=
  match s with
  | c :: s' => if isSpace c then trimStart s' else s
  | [] => []
  end.

Definition trimEnd (s : jsstring) : jsstring := rev (trimStart (rev s)).

Definition trim (s : jsstring) : jsstring := trimEnd (trimStart s).

(** Code units of an ASCII literal. *)
Fixpoint ofString (s : string) : jsstring :=
  match s with
  | EmptyString => []
  | String a s' => Z.of_nat (Ascii.nat_of_ascii a) :: ofString s'
  end.

(** A string in a condition: only the empty string is false. *)
Definition nonEmpty (s : jsstring) : bool :=
  match s with
  | [] => false
  | _ :: _ => true
  end.

(** An optional string in a condition: [undefined] and the empty string
    are both false. *)
Definition truthy (s : option string) : bool :=
  match s with
  | Some s => negb (String.eqb s EmptyString)
  | None => false
  end.

End JsString.
Import JsString.

(** ** Regular expressions

    The patterns of the source use literals, classes, [+], [*], [?], and the
    anchors [^] and [$] (no [m] flag, so they are the ends of the input).
    [RegExp.prototype.test] asks whether a match exists, so a pattern is
    modelled by its language and decided with derivatives. *)

Module Regex.

Inductive regex : Type :=
| Nul                                  (* matches nothing *)
| Eps                                  (* the empty string *)
| Cls (p : Z -> bool)                  (* one code unit of a class *)
| Cat (r1 r2 : regex)
| Alt (r1 r2 : regex)
| Star (r : regex).

Fixpoint nullable (r : regex) : bool :=
  match r with
  | Nul => false
  | Eps => true
  | Cls _ => false
  | Cat r1 r2 => nullable r1 && nullable r2
  | Alt r1 r2 => nullable r1 || nullable r2
  | Star _ => true
  end.

Fixpoint deriv (c : Z) (r : regex) : regex :=
  match r with
  | Nul => Nul
  | Eps => Nul
  | Cls p => if p c then Eps else Nul
  | Cat r1 r2 =>
      if nullable r1
      then Alt (Cat (deriv c r1) r2) (deriv c r2)
      else Cat (deriv c r1) r2
  | Alt r1 r2 => Alt (deriv c r1) (deriv c r2)
  | Star r1 => Cat (deriv c r1) (Star r1)
  end.

(** Whole-input match: the pattern between [^] and [$]. *)
Fixpoint fullMatch (r : regex) (s : jsstring) : bool :=
  match s with
  | [] => nullable r
  | c :: s' => fullMatch (deriv c r) s'
  end.

(** Declarative language of a pattern, the reference for [fullMatch]. *)
Inductive lang : regex -> jsstring -> Prop :=
| L_Eps : lang Eps []
| L_Cls p c : p c = true -> lang (Cls p) [c]
| L_Cat r1 r2 s1 s2 : lang r1 s1 -> lang r2 s2 -> lang (Cat r1 r2) (s1 ++ s2)
| L_AltL r1 r2 s : lang r1 s -> lang (Alt r1 r2) s
| L_AltR r1 r2 s : lang r2 s -> lang (Alt r1 r2) s
| L_Star0 r : lang (Star r) []
| L_StarS r s1 s2 : lang r s1 -> lang (Star r) s2 -> lang (Star r) (s1 ++ s2).

(** Derived forms. *)
Definition Chr (c : Z) : regex := Cls (Z.eqb c).
Definition Plus (r : regex) : regex := Cat r (Star r).
Definition Opt (r : regex) : regex := Alt r Eps.
Definition Any : regex := Cls (fun _ => true).
(** [.] without the [s] flag: anything but a line terminator. *)
Definition Dot : regex := Cls (fun c => negb (isLineTerminator c)).

Fixpoint Lit (s : jsstring) : regex :=
  match s with
  | [] => Eps
  | c :: s' => Cat (Chr c) (Lit s')
  end.

(** A pattern anchored at [^] only matches when some prefix is in the
    language: the rest of the input is unconstrained. *)
Definition prefixMatch (r : regex) (s : jsstring) : bool :=
  fullMatch (Cat r (Star Any)) s.

End Regex.
Import Regex.

(** ** Noise classifier *)

Module Noise.

(** Either case of an ASCII letter given in upper case: what the [i] flag
    makes of a literal letter or of a range within [A-Z]. Canonicalisation
    never maps a code unit above 127 to one below, so no other code unit
    matches. *)
Definition ci (upper : Z) : regex :=
  Cls (fun c => (c =? upper) || (c =? upper + 32)).

Definition asciiLetter : regex :=
  Cls (fun c => ((0x41 <=? c) && (c <=? 0x5A)) || ((0x61 <=? c) && (c <=? 0x7A))).

(** [[。、]?] *)
Definition stopOpt : regex := Opt (Cls (fun c => (c =? 0x3002) || (c =? 0x3001))).

Definition arigatou : jsstring :=
  [0x3042; 0x308A; 0x304C; 0x3068; 0x3046; 0x3054; 0x3056; 0x3044; 0x307E; 0x3057; 0x305F].

Inductive pattern : Type :=
| Anchored (r : regex)      (* /^r$/ *)
| Prefix (r : regex).       (* /^r/  *)

Definition test (p : pattern) (s : jsstring) : bool :=
  match p with
  | Anchored r => fullMatch r s
  | Prefix r => prefixMatch r s
  end.

Definition NOISE_PATTERNS : list pattern :=
  [ Anchored (Cat (Plus (Chr 0x3093)) stopOpt);                    (* ^ん+[。、]?$ *)
    Anchored (Cat (Plus (Chr 0x3042)) stopOpt);                    (* ^あ+[。、]?$ *)
    Anchored (Cat (Plus (Chr 0x3048)) stopOpt);                    (* ^え+[。、]?$ *)
    Anchored (Cat (Plus (Chr 0x3046)) stopOpt);                    (* ^う+[。、]?$ *)
    Anchored (Cat (Lit [0x306F; 0x3044]) stopOpt);                 (* ^はい[。、]?$ *)
    Anchored (Cat (Lit [0x3044; 0x3063]) stopOpt);                 (* ^いっ[。、]?$ *)
    Prefix (Lit ([0x3054; 0x8996; 0x8074] ++ arigatou));           (* ^ご視聴ありがとうございました *)
    Prefix (Lit ([0x3054; 0x6E05; 0x8074] ++ arigatou));           (* ^ご清聴ありがとうございました *)
    Prefix (Cat (Chr 0x3010)                                       (* ^【.*エンディング.*】 *)
             (Cat (Star Dot)
               (Cat (Lit [0x30A8; 0x30F3; 0x30C7; 0x30A3; 0x30F3; 0x30B0])
                 (Cat (Star Dot) (Chr 0x3011)))));
    Prefix (Cat (ci 0x42) (Cat (ci 0x59)                             (* ^by\s+[A-Z]\. with flag i *)
             (Cat (Plus (Cls isSpace)) (Cat asciiLetter (Chr 0x2E)))));
    Anchored (Cat (Lit [0x307E; 0x305F; 0x306D]) stopOpt);         (* ^またね[。、]?$ *)
    Anchored (Cat (Lit [0x3069; 0x3046; 0x3082]) stopOpt);         (* ^どうも[。、]?$ *)
    Anchored (Star (Cls isSpace)) ].                               (* ^\s*$ *)

(** The class [[。、！？!?.,\s]] of the length test. *)
Definition isPunct (c : Z) : bool :=
  (c =? 0x3002) || (c =? 0x3001) || (c =? 0xFF01) || (c =? 0xFF1F) ||
  (c =? 0x21) || (c =? 0x3F) || (c =? 0x2E) || (c =? 0x2C) || isSpace c.

(** [s.replace(/[...]/g, empty)]: every code unit of the class is dropped. *)
Definition stripPunct (s : jsstring) : jsstring :=
  List.filter (fun c => negb (isPunct c)) s.

Definition isNoiseTranscript (text : jsstring) : bool :=
  let trimmed := trim text in
  let withoutPunct := stripPunct trimmed in
  if Z.of_nat (length withoutPunct) <? 3 then true
  else existsb (fun pattern => test pattern trimmed) NOISE_PATTERNS.


(** "はい。" *)
Definition hai_maru : jsstring := [0x306F; 0x3044; 0x3002].

End Noise.
Import Noise.

(** ** WAV encoder *)

Module Wav.

Definition Buffer := list Z.

(** A call either returns or throws [ERR_OUT_OF_RANGE] for the value it
    was given. *)
Inductive result (A : Type) : Type :=
| Ok (a : A)
| RangeError (value : Q).
Arguments Ok {A} a.
Arguments RangeError {A} value.

Definition bind {A B : Type} (r : result A) (k : A -> result B) : result B :=
  match r with
  | Ok a => k a
  | RangeError v => RangeError v
  end.

Notation "x <- e ;; k" := (bind e (fun x => k))
  (at level 100, e at next level, right associativity).

Definition Qltb (a b : Q) : bool := negb (Qle_bool b a).

(** [Buffer.alloc(n)] *)
Definition alloc (n : nat) : Buffer := replicate n 0.

(** [buf.write(str, offset)] for an ASCII literal that fits. *)
Fixpoint write (buf : Buffer) (s : jsstring) (offset : nat) : Buffer :=
  match s with
  | [] => buf
  | c :: s' => write (<[offset := c]> buf) s' (S offset)
  end.

(** Node's [checkInt]: the number itself is compared, before any
    truncation. *)
Definition checkInt (value : Q) (min max : Z) : result unit :=
  if Qltb (inject_Z max) value || Qltb value (inject_Z min)
  then RangeError value
  else Ok tt.

(** [buf[i] = value] on a byte array keeps the low eight bits of the
    integer part; [value >>> 8] shifts the integer part. Past [checkInt] the
    value is not negative, so the integer part is the floor. *)
Definition writeUInt16LE (buf : Buffer) (value : Q) (offset : nat) : result Buffer :=
  _ <- checkInt value 0 0xFFFF ;;
  let v := Qfloor value in
  let buf := <[offset := Z.land v 255]> buf in
  let v := Z.shiftr v 8 in
  let buf := <[S offset := Z.land v 255]> buf in
  Ok buf.

Definition writeUInt32LE (buf : Buffer) (value : Q) (offset : nat) : result Buffer :=
  _ <- checkInt value 0 0xFFFFFFFF ;;
  let v := Qfloor value in
  let buf := <[offset := Z.land v 255]> buf in
  let v := Z.shiftr v 8 in
  let buf := <[(offset + 1)%nat := Z.land v 255]> buf in
  let v := Z.shiftr v 8 in
  let buf := <[(offset + 2)%nat := Z.land v 255]> buf in
  let v := Z.shiftr v 8 in
  let buf := <[(offset + 3)%nat := Z.land v 255]> buf in
  Ok buf.

(** The arguments are the integer-valued numbers of the call; the two
    quotients are exact rationals, as the doubles are for every product
    below 2^53 (a larger one is out of range whichever way it rounds). *)
Definition pcmToWav (pcm : Buffer) (sampleRate channels bitsPerSample : Z)
  : result Buffer :=
  let byteRate := (inject_Z (sampleRate * channels * bitsPerSample) / 8)%Q in
  let blockAlign := (inject_Z (channels * bitsPerSample) / 8)%Q in
  let dataSize := Z.of_nat (length pcm) in
  let headerSize := 44%nat in
  let fileSize := Z.of_nat headerSize + dataSize - 8 in
  let header := alloc headerSize in
  (* RIFF header *)
  let header := write header (ofString "RIFF") 0 in
  header <- writeUInt32LE header (inject_Z fileSize) 4 ;;
  let header := write header (ofString "WAVE") 8 in
  (* fmt chunk *)
  let header := write header (ofString "fmt ") 12 in
  header <- writeUInt32LE header (inject_Z 16) 16 ;;
  header <- writeUInt16LE header (inject_Z 1) 20 ;;
  header <- writeUInt16LE header (inject_Z channels) 22 ;;
  header <- writeUInt32LE header (inject_Z sampleRate) 24 ;;
  header <- writeUInt32LE header byteRate 28 ;;
  header <- writeUInt16LE header blockAlign 32 ;;
  header <- writeUInt16LE header (inject_Z bitsPerSample) 34 ;;
  (* data chunk *)
  let header := write header (ofString "data") 36 in
  header <- writeUInt32LE header (inject_Z dataSize) 40 ;;
  Ok (header ++ pcm).

(** A decoder's view of the header fields. *)
Definition readUInt16LE (buf : Buffer) (offset : nat) : option Z :=
  match buf !! offset, buf !! S offset with
  | Some b0, Some b1 => Some (b0 + b1 * 2 ^ 8)
  | _, _ => None
  end.

Definition readUInt32LE (buf : Buffer) (offset : nat) : option Z :=
  match buf !! offset, buf !! (offset + 1)%nat, buf !! (offset + 2)%nat,
        buf !! (offset + 3)%nat with
  | Some b0, Some b1, Some b2, Some b3 =>
      Some (b0 + b1 * 2 ^ 8 + b2 * 2 ^ 16 + b3 * 2 ^ 24)
  | _, _, _, _ => None
  end.

(** Little-endian bytes, as the writers lay them out. *)
Definition le16 (v : Z) : Buffer :=
  [Z.land v 255; Z.land (Z.shiftr v 8) 255].

Definition le32 (v : Z) : Buffer :=
  [Z.land v 255; Z.land (Z.shiftr v 8) 255;
   Z.land (Z.shiftr (Z.shiftr v 8) 8) 255;
   Z.land (Z.shiftr (Z.shiftr (Z.shiftr v 8) 8) 8) 255].

(** The canonical 44-byte header for values that fit their fields. *)
Definition canonicalHeader (dataSize sampleRate channels bitsPerSample : Z) : Buffer :=
  ofString "RIFF" ++ le32 (44 + dataSize - 8) ++ ofString "WAVE" ++
  ofString "fmt " ++ le32 16 ++ le16 1 ++ le16 channels ++ le32 sampleRate ++
  le32 (sampleRate * channels * bitsPerSample / 8) ++
  le16 (channels * bitsPerSample / 8) ++ le16 bitsPerSample ++
  ofString "data" ++ le32 dataSize.

(** Every header field holds its value. *)
Definition fitsHeader (dataSize sampleRate channels bitsPerSample : Z) : Prop :=
  0 <= sampleRate <= 0xFFFFFFFF /\
  0 <= channels <= 0xFFFF /\
  0 <= bitsPerSample <= 0xFFFF /\
  sampleRate * channels * bitsPerSample <= 8 * 0xFFFFFFFF /\
  channels * bitsPerSample <= 8 * 0xFFFF /\
  dataSize + 36 <= 0xFFFFFFFF.

(** What the specification asks of an encode. *)
Definition wellEncoded (pcm : Buffer) (sampleRate channels bitsPerSample : Z)
  (out : result Buffer) : Prop :=
  exists header : Buffer,
    out = Ok (header ++ pcm) /\
    length header = 44%nat /\
    readUInt32LE header 40 = Some (Z.of_nat (length pcm)) /\
    readUInt32LE header 24 = Some sampleRate /\
    readUInt16LE header 22 = Some channels /\
    readUInt16LE header 34 = Some bitsPerSample.

End Wav.
Import Wav.

(** ** Whisper's verbose response and the confidence filter *)

Module Whisper.

(** The arithmetic of the confidence filter, kept abstract: the source
    computes on doubles, and the properties below hold for any arithmetic,
    so they are stated once for every instance. *)
Class JsNumber (number : Type) : Type := {
  num_zero : number;                             (* the literal 0 *)
  num_half : number;                             (* the literal 0.5 *)
  num_add : number -> number -> number;
  num_div : number -> number -> number;
  num_of_nat : nat -> number;                    (* an array length *)
  num_gt : number -> number -> bool
}.

(** Exact rationals, for running the filter on concrete responses. *)
#[export] Instance Q_JsNumber : JsNumber Q := {
  num_zero := 0%Q;
  num_half := (1 # 2)%Q;
  num_add := Qplus;
  num_div := Qdiv;
  num_of_nat n := inject_Z (Z.of_nat n);
  num_gt a b := negb (Qle_bool a b)
}.

Record WhisperSegment (number : Type) : Type := mkSegment {
  seg_text : jsstring;
  no_speech_prob : option number                 (* [?? 0] covers its absence *)
}.
Arguments mkSegment {number} _ _.
Arguments seg_text {number} _.
Arguments no_speech_prob {number} _.

Record WhisperVerboseResponse (number : Type) : Type := mkResponse {
  resp_text : jsstring;
  segments : option (list (WhisperSegment number))
}.
Arguments mkResponse {number} _ _.
Arguments resp_text {number} _.
Arguments segments {number} _.

Section Filter.
Context {number : Type} `{JsNumber number}.

(** [segments.reduce((sum, seg) => sum + (seg.no_speech_prob ?? 0), 0) /
    segments.length] *)
Definition avgNoSpeechProb (segs : list (WhisperSegment number)) : number :=
  num_div
    (fold_left (fun sum seg => num_add sum (default num_zero (no_speech_prob seg)))
               segs num_zero)
    (num_of_nat (length segs)).

(** Whether the filter of [transcribeWithWhisper] rejects the response. *)
Definition lowConfidence (result : WhisperVerboseResponse number) : bool :=
  match segments result with
  | Some segs =>
      (0 <? length segs)%nat && num_gt (avgNoSpeechProb segs) num_half
  | None => false
  end.

End Filter.

End Whisper.
Import Whisper.

(** ** The voice manager *)

Module Voice.

(** A function value is known by its identity only. *)
Abbreviation callback := nat (only parsing).
(** The address of a [Set] object. *)
Abbreviation loc := nat (only parsing).

Record VoiceListenerOptions : Type := mkOptions {
  onTranscription : callback;
  opt_silenceThreshold : option Z;
  opt_minSpeechDuration : option Z;
  openaiApiKey : option string;
  language : option string
}.

(** The [opts] argument of [handleSpeakingStart]: what the closure that
    [startListening] registers has captured. *)
Record CaptureOpts : Type := mkCaptureOpts {
  silenceThreshold : Z;
  minSpeechDuration : Z
}.

Definition captureOpts (options : VoiceListenerOptions) : CaptureOpts :=
  {| silenceThreshold := default 1500 (opt_silenceThreshold options);
     minSpeechDuration := default 500 (opt_minSpeechDuration options) |}.

Inductive VoiceConnectionStatus : Type := Ready | Destroyed.

#[export] Instance VoiceConnectionStatus_eq_dec : EqDecision VoiceConnectionStatus.
Proof. solve_decision. Defined.

(** A connection of the voice library, with what this module attaches to
    it: the player subscribed for output and the handlers of the receiver's
    speaking-start signal, in order of registration. *)
Record VoiceConnection : Type := mkConnection {
  channelId : string;
  status : VoiceConnectionStatus;
  subscription : option nat;
  onSpeakingStart : list CaptureOpts
}.

Record AudioPlayer : Type := mkPlayer {
  player_id : nat;
  resource : option (string * option Q)          (* path and inline volume *)
}.

(** One run of the closures created by [handleSpeakingStart]: the decoder
    with its [chunks], [startTime], and the [guildListeners] object the
    handlers close over. *)
Record Capture : Type := mkCapture {
  cap_guild : string;
  cap_user : string;
  cap_listeners : loc;
  cap_chunks : list Buffer;
  cap_startTime : Z;
  cap_opts : CaptureOpts
}.

(** [join(tempDir, `${guildId}-${userId}-${Date.now()}.wav`)] *)
Record TempFile : Type := mkTempFile {
  tf_dir : string;
  tf_guild : string;
  tf_user : string;
  tf_now : Z
}.

Inductive Error : Type :=
| NotConnected (guildId : string)
| FileNotFound (resolvedPath : string)
| GuildNotAccessible (guildId : string)
| GuildNotFound (guildId : string)
| ChannelNotAccessible (channel : string)
| NotAVoiceChannel (channel : string)
| JoinFailed
| MkdirFailed
| EncodeFailed
| WriteFailed
| ApiKeyMissing
| ReadFailed
| NetworkError
| WhisperApiError (status : Z) (body : string)
| CallbackFailed.

Inductive Outcome (A : Type) : Type :=
| Returned (a : A)
| Thrown (e : Error).
Arguments Returned {A} a.
Arguments Thrown {A} e.

(** What the module does to the outside, in order. *)
Inductive Effect : Type :=
| Subscribe (guildId userId : string) (silence : Z)
| Mkdir (dir : string)
| WriteFile (file : TempFile) (data : Buffer)
| WhisperRequest (file : TempFile) (apiKey : string) (lang : option string)
| OnTranscription (cb : callback) (userId username : string) (text : jsstring)
                  (guildId channel : string)
| Unlink (file : TempFile) (succeeded : bool)
| ConsoleLog
| ConsoleError.

Definition isOnTranscription (e : Effect) : bool :=
  match e with OnTranscription _ _ _ _ _ _ => true | _ => false end.

Definition isUnlink (e : Effect) : bool :=
  match e with Unlink _ _ => true | _ => false end.


(** The manager's fields, the objects its closures hold, and the library
    and platform state it reads.  The field [userBuffers] of the source is
    never read or written and is left out. *)
Record World : Type := mkWorld {
  (* VoiceManager *)
  players : gmap string AudioPlayer;
  tempDir : string;
  listenerOptions : option VoiceListenerOptions;
  activeListeners : gmap string loc;
  (* heap *)
  sets : gmap loc (gset string);
  captures : gmap nat Capture;
  fresh : nat;
  (* voice library and platform *)
  connections : gmap string VoiceConnection;
  destroyUntracks : bool;
  existing : gset string;
  effects : list Effect
}.

Definition set_players (v : gmap string AudioPlayer) (w : World) : World :=
  mkWorld v (tempDir w) (listenerOptions w) (activeListeners w) (sets w)
          (captures w) (fresh w) (connections w) (destroyUntracks w)
          (existing w) (effects w).
Definition set_listenerOptions (v : option VoiceListenerOptions) (w : World) : World :=
  mkWorld (players w) (tempDir w) v (activeListeners w) (sets w)
          (captures w) (fresh w) (connections w) (destroyUntracks w)
          (existing w) (effects w).
Definition set_activeListeners (v : gmap string loc) (w : World) : World :=
  mkWorld (players w) (tempDir w) (listenerOptions w) v (sets w)
          (captures w) (fresh w) (connections w) (destroyUntracks w)
          (existing w) (effects w).
Definition set_sets (v : gmap loc (gset string)) (w : World) : World :=
  mkWorld (players w) (tempDir w) (listenerOptions w) (activeListeners w) v
          (captures w) (fresh w) (connections w) (destroyUntracks w)
          (existing w) (effects w).
Definition set_captures (v : gmap nat Capture) (w : World) : World :=
  mkWorld (players w) (tempDir w) (listenerOptions w) (activeListeners w) (sets w)
          v (fresh w) (connections w) (destroyUntracks w)
          (existing w) (effects w).
Definition set_fresh (v : nat) (w : World) : World :=
  mkWorld (players w) (tempDir w) (listenerOptions w) (activeListeners w) (sets w)
          (captures w) v (connections w) (destroyUntracks w)
          (existing w) (effects w).
Definition set_connections (v : gmap string VoiceConnection) (w : World) : World :=
  mkWorld (players w) (tempDir w) (listenerOptions w) (activeListeners w) (sets w)
          (captures w) (fresh w) v (destroyUntracks w)
          (existing w) (effects w).
Definition emit (e : Effect) (w : World) : World :=
  mkWorld (players w) (tempDir w) (listenerOptions w) (activeListeners w) (sets w)
          (captures w) (fresh w) (connections w) (destroyUntracks w)
          (existing w) (effects w ++ [e]).

(** A manager that has joined nothing yet. [untrack] says whether the
    library's registry forgets a destroyed connection or keeps returning it
    in the [Destroyed] state; the code checks for both. *)
Definition newWorld (dir : string) (untrack : bool) (files : gset string) : World :=
  mkWorld ∅ dir None ∅ ∅ ∅ 0%nat ∅ untrack files [].

(** [getVoiceConnection] *)
Definition getVoiceConnection (guildId : string) (w : World) : option VoiceConnection :=
  connections w !! guildId.

(** [connection.destroy()] *)
Definition destroyConnection (guildId : string) (w : World) : World :=
  if destroyUntracks w
  then set_connections (delete guildId (connections w)) w
  else set_connections
         (alter (fun c => mkConnection (channelId c) Destroyed (subscription c)
                                       (onSpeakingStart c))
                guildId (connections w)) w.

(** The paths handed to [play] are absolute and normalised: [path.resolve]
    leaves them as they are. *)
Definition resolve (filePath : string) : string := filePath.

Definition existsSync (path : string) (w : World) : bool :=
  bool_decide (path ∈ existing w).

(** *** Connection manager *)

(** What the gateway answers while [join] looks the guild and the channel
    up, and whether the new connection becomes ready within 20 seconds. *)
Inductive JoinEnv : Type :=
| GuildFetchFails
| GuildAbsent
| ChannelFetchFails
| ChannelNotVoice
| Reachable (ready : bool).

Definition join (guildId channel : string) (env : JoinEnv) (w : World)
  : Outcome unit * World :=
  match env with
  | GuildFetchFails => (Thrown (GuildNotAccessible guildId), w)
  | GuildAbsent => (Thrown (GuildNotFound guildId), w)
  | ChannelFetchFails => (Thrown (ChannelNotAccessible channel), w)
  | ChannelNotVoice => (Thrown (NotAVoiceChannel channel), w)
  | Reachable ready =>
      let joinVoiceChannel :=
        let w1 := set_connections
                    (<[guildId := mkConnection channel Ready None []]> (connections w)) w in
        if ready then (Returned tt, w1)
        else (Thrown JoinFailed, destroyConnection guildId w1) in
      match getVoiceConnection guildId w with
      | Some existing_ =>
          if decide (status existing_ = Destroyed) then joinVoiceChannel
          else
            (* existing.rejoin({ channelId, ... }) *)
            (Returned tt,
             set_connections
               (<[guildId := mkConnection channel (status existing_)
                                          (subscription existing_)
                                          (onSpeakingStart existing_)]>
                  (connections w)) w)
      | None => joinVoiceChannel
      end
  end.

Definition isConnected (guildId : string) (w : World) : bool :=
  match getVoiceConnection guildId w with
  | Some connection => negb (bool_decide (status connection = Destroyed))
  | None => false
  end.

Definition getChannelId (guildId : string) (w : World) : option string :=
  match getVoiceConnection guildId w with
  | Some connection =>
      if decide (status connection = Destroyed) then None
      else Some (channelId connection)
  | None => None
  end.

(** *** Playback controller *)

(** [play] returns once the resource has been handed to the player; the
    promise it returns settles later, on the player's idle or error
    signal. *)
Definition play (guildId filePath : string) (volume : option Q) (w : World)
  : Outcome unit * World :=
  match getVoiceConnection guildId w with
  | None => (Thrown (NotConnected guildId), w)
  | Some connection =>
      let resolvedPath := resolve filePath in
      if negb (existsSync resolvedPath w)
      then (Thrown (FileNotFound resolvedPath), w)
      else
        let '(player, w1) :=
          match players w !! guildId with
          | Some player => (player, w)
          | None =>
              let player := mkPlayer (fresh w) None in
              let w1 := set_fresh (S (fresh w)) w in
              let w1 := set_players (<[guildId := player]> (players w1)) w1 in
              (* connection.subscribe(player) *)
              let w1 := set_connections
                          (<[guildId := mkConnection (channelId connection)
                                                     (status connection)
                                                     (Some (player_id player))
                                                     (onSpeakingStart connection)]>
                             (connections w1)) w1 in
              (player, w1)
          end in
        (* player.play(resource) *)
        let playing := mkPlayer (player_id player) (Some (resolvedPath, volume)) in
        (Returned tt, set_players (<[guildId := playing]> (players w1)) w1)
  end.

Definition stop (guildId : string) (w : World) : World :=
  match players w !! guildId with
  | Some player =>
      set_players (<[guildId := mkPlayer (player_id player) None]> (players w)) w
  | None => w
  end.

Definition leave (guildId : string) (w : World) : World :=
  let w1 :=
    match players w !! guildId with
    | Some player => set_players (delete guildId (players w)) w
    | None => w
    end in
  match getVoiceConnection guildId w1 with
  | Some connection => destroyConnection guildId w1
  | None => w1
  end.

(** *** Utterance tracker *)

Definition startListening (guildId : string) (options : VoiceListenerOptions)
  (mkdirOk : bool) (w : World) : Outcome unit * World :=
  match getVoiceConnection guildId w with
  | None => (Thrown (NotConnected guildId), w)
  | Some connection =>
      let w1 := set_listenerOptions (Some options) w in
      let w1 := emit (Mkdir (tempDir w1)) w1 in
      if negb mkdirOk then (Thrown MkdirFailed, w1)
      else
        (* receiver.speaking.on("start", ...) *)
        (Returned tt,
         set_connections
           (<[guildId := mkConnection (channelId connection) (status connection)
                                      (subscription connection)
                                      (onSpeakingStart connection ++ [captureOpts options])]>
              (connections w1)) w1)
  end.

(** [now] is what [Date.now()] answers when the capture starts. *)
Definition handleSpeakingStart (guildId userId : string) (opts : CaptureOpts)
  (now : Z) (w : World) : World :=
  (* Skip if already listening to this user *)
  let '(guildListeners, w1) :=
    match activeListeners w !! guildId with
    | Some l => (l, w)
    | None =>
        let l := fresh w in
        let w1 := set_fresh (S l) w in
        let w1 := set_sets (<[l := ∅]> (sets w1)) w1 in
        (l, set_activeListeners (<[guildId := l]> (activeListeners w1)) w1)
    end in
  let members := default ∅ (sets w1 !! guildListeners) in
  if bool_decide (userId ∈ members) then w1
  else
    let w2 := set_sets (<[guildListeners := members ∪ {[userId]}]> (sets w1)) w1 in
    let w2 := emit (Subscribe guildId userId (silenceThreshold opts)) w2 in
    let capture := mkCapture guildId userId guildListeners [] now opts in
    let w2 := set_captures (<[fresh w2 := capture]> (captures w2)) w2 in
    set_fresh (S (fresh w2)) w2.

(** [guildListeners?.delete(userId)], on the object the closure holds. *)
Definition releaseListener (capture : Capture) (w : World) : World :=
  set_sets (alter (fun members => members ∖ {[cap_user capture]})
                  (cap_listeners capture) (sets w)) w.

(** The speaking-start signal of a guild's receiver runs every handler
    registered on it. A destroyed connection receives nothing. *)
Definition speakingStart (guildId userId : string) (now : Z) (w : World) : World :=
  match getVoiceConnection guildId w with
  | Some connection =>
      if decide (status connection = Destroyed) then w
      else fold_left (fun w opts => handleSpeakingStart guildId userId opts now w)
                     (onSpeakingStart connection) w
  | None => w
  end.

(** [decoder.on("data", ...)] *)
Definition decoderData (id : nat) (chunk : Buffer) (w : World) : World :=
  match captures w !! id with
  | Some c =>
      set_captures
        (<[id := mkCapture (cap_guild c) (cap_user c) (cap_listeners c)
                           (cap_chunks c ++ [chunk]) (cap_startTime c) (cap_opts c)]>
           (captures w)) w
  | None => w
  end.

(** [decoder.on("error", ...)] and [opusStream.on("error", ...)]: the
    error is logged, the user is released, and the capture is over. *)
Definition captureError (id : nat) (w : World) : World :=
  match captures w !! id with
  | Some c =>
      let w1 := emit ConsoleError w in
      let w1 := releaseListener c w1 in
      set_captures (delete id (captures w1)) w1
  | None => w
  end.

Definition stopListening (guildId : string) (w : World) : World :=
  match activeListeners w !! guildId with
  | Some listeners =>
      (* listeners.clear() *)
      let w1 := set_sets (alter (fun _ => ∅) listeners (sets w)) w in
      set_activeListeners (delete guildId (activeListeners w1)) w1
  | None => w
  end.

Definition isListening (guildId : string) (w : World) : bool :=
  bool_decide (listenerOptions w ≠ None) &&
  bool_decide (is_Some (activeListeners w !! guildId)).

(** The captures of this user in this guild that are still running. *)
Definition capturing (guildId userId : string) (w : World) : list (nat * Capture) :=
  List.filter
    (fun entry => bool_decide (cap_guild entry.2 = guildId ∧ cap_user entry.2 = userId))
    (map_to_list (captures w)).

(** *** Transcription client and audio processing *)

Section Transcription.
Context {number : Type} `{JsNumber number}.

Inductive WhisperOutcome : Type :=
| ReadFileFails
| FetchFails
| HttpError (status : Z) (body : string)
| Response (result : WhisperVerboseResponse number).

(** What the outside answers during one run of [processAudio]. *)
Record Env : Type := mkEnv {
  env_displayName : option string;     (* member lookup; none keeps the user id *)
  env_now : Z;                         (* Date.now() for the file name *)
  env_writeFile : bool;                (* writeFile succeeds *)
  env_apiKey : option string;          (* process.env.OPENAI_API_KEY *)
  env_whisper : WhisperOutcome;
  env_callback : bool;                 (* the callback settles without throwing *)
  env_unlink : bool                    (* unlink succeeds *)
}.

(** The same answers, with another fate for [unlink]. *)
Definition withUnlink (b : bool) (env : Env) : Env :=
  mkEnv (env_displayName env) (env_now env) (env_writeFile env) (env_apiKey env)
        (env_whisper env) (env_callback env) b.

(** [listenerOptions?.openaiApiKey ?? process.env.OPENAI_API_KEY] *)
Definition apiKeyOf (env : Env) (w : World) : option string :=
  match listenerOptions w ≫= openaiApiKey with
  | Some key => Some key
  | None => env_apiKey env
  end.

(** The multipart request: the file, and the language when one is set. *)
Definition requestFor (audioPath : TempFile) (env : Env) (w : World) : Effect :=
  let lang := listenerOptions w ≫= language in
  WhisperRequest audioPath (default EmptyString (apiKeyOf env w))
                 (if truthy lang then lang else None).

Definition transcribeWithWhisper (audioPath : TempFile) (env : Env) (w : World)
  : Outcome (option jsstring) * World :=
  let apiKey := apiKeyOf env w in
  if negb (truthy apiKey) then (Thrown ApiKeyMissing, w)
  else
    let request := emit (requestFor audioPath env w) in
    match env_whisper env with
    | ReadFileFails => (Thrown ReadFailed, w)
    | FetchFails => (Thrown NetworkError, request w)
    | HttpError status body => (Thrown (WhisperApiError status body), request w)
    | Response result =>
        (* Filter by confidence: if no_speech_prob is too high, likely noise *)
        if lowConfidence result then (Returned None, emit ConsoleLog (request w))
        else (Returned (Some (resp_text result)), request w)
    end.

(** The [try] block of [processAudio]. *)
Definition transcribeAndDeliver (options : VoiceListenerOptions)
  (guildId userId username channel : string) (tempFile : TempFile)
  (env : Env) (w : World) : Outcome unit * World :=
  match transcribeWithWhisper tempFile env w with
  | (Thrown e, w1) => (Thrown e, w1)
  | (Returned transcript, w1) =>
      match trim <$> transcript with
      | Some trimmedTranscript =>
          if nonEmpty trimmedTranscript &&
             negb (isNoiseTranscript trimmedTranscript)
          then
            let w2 := emit (OnTranscription (onTranscription options) userId username
                                            trimmedTranscript guildId channel) w1 in
            if env_callback env then (Returned tt, w2) else (Thrown CallbackFailed, w2)
          else (Returned tt, w1)
      | None => (Returned tt, w1)
      end
  end.

Definition processAudio (guildId userId : string) (chunks : list Buffer)
  (env : Env) (w : World) : Outcome unit * World :=
  match listenerOptions w with
  | None => (Returned tt, w)
  | Some options =>
      let channel :=
        match getVoiceConnection guildId w with
        | Some connection => channelId connection
        | None => EmptyString
        end in
      let username := default userId (env_displayName env) in
      (* Combine chunks into PCM buffer *)
      let pcmBuffer := concat chunks in
      match pcmToWav pcmBuffer 48000 2 16 with
      | RangeError _ => (Thrown EncodeFailed, w)
      | Ok wavBuffer =>
          let tempFile := mkTempFile (tempDir w) guildId userId (env_now env) in
          if negb (env_writeFile env) then (Thrown WriteFailed, w)
          else
            let w1 := emit (WriteFile tempFile wavBuffer) w in
            let '(outcome, w2) :=
              transcribeAndDeliver options guildId userId username channel tempFile env w1 in
            (* finally: cleanup, ignoring its errors *)
            (outcome, emit (Unlink tempFile (env_unlink env)) w2)
      end
  end.

(** [decoder.on("end", ...)]; [now] is [Date.now()] at that moment. *)
Definition decoderEnd (id : nat) (now : Z) (env : Env) (w : World) : World :=
  match captures w !! id with
  | Some c =>
      let w1 := releaseListener c w in
      let w1 := set_captures (delete id (captures w1)) w1 in
      let duration := now - cap_startTime c in
      if (duration <? minSpeechDuration (cap_opts c)) ||
         (Z.of_nat (length (cap_chunks c)) =? 0)
      then w1 (* Too short, ignore *)
      else
        match processAudio (cap_guild c) (cap_user c) (cap_chunks c) env w1 with
        | (Returned _, w2) => w2
        | (Thrown _, w2) => emit ConsoleError w2
        end
  | None => w
  end.

(** *** Runs *)

Inductive Event : Type :=
| Join (guildId channel : string) (env : JoinEnv)
| Play (guildId filePath : string) (volume : option Q)
| Stop (guildId : string)
| Leave (guildId : string)
| StartListening (guildId : string) (options : VoiceListenerOptions) (mkdirOk : bool)
| StopListening (guildId : string)
| SpeakingStart (guildId userId : string) (now : Z)
| DecoderData (id : nat) (chunk : Buffer)
| DecoderEnd (id : nat) (now : Z) (env : Env)
| DecoderError (id : nat)
| StreamError (id : nat).

Definition step (w : World) (e : Event) : World :=
  match e with
  | Join g ch env => (join g ch env w).2
  | Play g f v => (play g f v w).2
  | Stop g => stop g w
  | Leave g => leave g w
  | StartListening g options mkdirOk => (startListening g options mkdirOk w).2
  | StopListening g => stopListening g w
  | SpeakingStart g u now => speakingStart g u now w
  | DecoderData id chunk => decoderData id chunk w
  | DecoderEnd id now env => decoderEnd id now env w
  | DecoderError id => captureError id w
  | StreamError id => captureError id w
  end.

Definition run (events : list Event) (w : World) : World :=
  fold_left step events w.

End Transcription.

Arguments WhisperOutcome : clear implicits.
Arguments Env : clear implicits.
Arguments Event : clear implicits.

End Voice.
Import Voice.

(** ** The module-level manager *)

Module Singleton.

(** A constructed [VoiceManager]: which construction it was, and the token
    its client logged in with. *)
Record Instance : Type := mkInstance {
  inst_id : nat;
  inst_token : string
}.

#[export] Instance Instance_eq_dec : EqDecision Instance.
Proof. solve_decision. Defined.

(** The variable [voiceManager] of the module, and every manager built so
    far (each construction logs a client in). *)
Record State : Type := mkState {
  voiceManager : option Instance;
  constructed : list Instance
}.

Definition initial : State := mkState None [].

(** [voiceManager = new VoiceManager({ token })] *)
Definition construct (token : string) (st : State) : Instance * State :=
  let m := mkInstance (length (constructed st)) token in
  (m, mkState (Some m) (constructed st ++ [m])).

Definition getVoiceManager (token : option string) (st : State)
  : option Instance * State :=
  match voiceManager st with
  | Some m => (Some m, st)
  | None =>
      if negb (truthy token) then (None, st)
      else
        let '(m, st') := construct (default EmptyString token) st in
        (Some m, st')
  end.

Inductive InitOutcome : Type :=
| Resolved (m : Instance)
| LoginRejected.

(** [ready] says whether [waitReady] resolves; when it rejects, the
    variable keeps the manager that was just built. *)
Definition initVoiceManager (token : string) (ready : bool) (st : State)
  : InitOutcome * State :=
  match voiceManager st with
  | Some m => (Resolved m, st)
  | None =>
      let '(m, st') := construct token st in
      if ready then (Resolved m, st') else (LoginRejected, st')
  end.

Definition destroyVoiceManager (st : State) : State :=
  match voiceManager st with
  | Some _ => mkState None (constructed st)
  | None => st
  end.

(** A call of either accessor, and the manager it hands back, if any. *)
Inductive Call : Type :=
| Get (token : option string)
| Init (token : string) (ready : bool).

Definition call (c : Call) (st : State) : option Instance * State :=
  match c with
  | Get token => getVoiceManager token st
  | Init token ready =>
      match initVoiceManager token ready st with
      | (Resolved m, st') => (Some m, st')
      | (LoginRejected, st') => (None, st')
      end
  end.

Fixpoint calls (cs : list Call) (st : State) : list (option Instance) * State :=
  match cs with
  | [] => ([], st)
  | c :: cs' =>
      let '(r, st1) := call c st in
      let '(rs, st2) := calls cs' st1 in
      (r :: rs, st2)
  end.

End Singleton.

(** ** A session used to run the model *)

Module Scenario.

Definition guildA : string := "guildA".
Definition guildB : string := "guildB".
Definition chanX : string := "chanX".
Definition chanY : string := "chanY".
Definition alice : string := "alice".

(** Two listener configurations that differ in every field. *)
Definition optionsA : VoiceListenerOptions :=
  mkOptions 1%nat None None (Some "keyA"%string) (Some "ja"%string).
Definition optionsB : VoiceListenerOptions :=
  mkOptions 2%nat (Some 900) (Some 100) (Some "keyB"%string) (Some "en"%string).

Definition start : World := newWorld "/tmp/clawdbot-voice" true ∅.

(** A response with one segment of the given no-speech probability. *)
Definition response (p : Q) : WhisperVerboseResponse Q :=
  mkResponse (ofString " turn the volume down ")
             (Some [mkSegment (ofString " turn the volume down") (Some p)]).

Definition answers (p : Q) : Env Q :=
  mkEnv (Some "Alice"%string) 1700000000000 true None (Response (response p)) true true.

Definition chunk : Buffer := [1; 0; 2; 0].

(** Guild A is joined and listening, and Alice is being captured. *)
Definition capturingAlice : list (Event Q) :=
  [ Join guildA chanX (Reachable true);
    StartListening guildA optionsA true;
    SpeakingStart guildA alice 0;
    DecoderData 1%nat chunk ].

End Scenario.

(** ** What the tracker maintains *)

Module Tracking.

(** Every listener set is allocated and belongs to one guild; every running
    capture has its user in the set its guild currently lists; and no two
    running captures are of the same user in the same guild. *)
Record consistent (w : World) : Prop := mkConsistent {
  listeners_allocated :
    forall (g : string) (l : nat),
      activeListeners w !! g = Some l ->
      (l < fresh w)%nat /\ is_Some (sets w !! l);
  listeners_distinct :
    forall (g1 g2 : string) (l : nat),
      activeListeners w !! g1 = Some l -> activeListeners w !! g2 = Some l -> g1 = g2;
  captures_registered :
    forall (id : nat) (c : Capture),
      captures w !! id = Some c ->
      (id < fresh w)%nat /\
      activeListeners w !! cap_guild c = Some (cap_listeners c) /\
      exists members : gset string,
        sets w !! cap_listeners c = Some members /\ cap_user c ∈ members;
  captures_exclusive :
    forall (id1 id2 : nat) (c1 c2 : Capture),
      captures w !! id1 = Some c1 -> captures w !! id2 = Some c2 ->
      cap_guild c1 = cap_guild c2 -> cap_user c1 = cap_user c2 -> id1 = id2
}.

Definition isStopListening {number : Type} (e : Event number) : bool :=
  match e with
  | StopListening _ => true
  | _ => false
  end.

End Tracking.

(** ** Further sessions used to run the model *)

Module Session.

Definition song : string := "/srv/audio/song.ogg".
Definition jingle : string := "/srv/audio/jingle.ogg".

(** A manager with two audio files on disk. *)
Definition start : World :=
  newWorld "/tmp/clawdbot-voice" true ({[song]} ∪ {[jingle]}).

(** Guild A is joined. *)
Definition joined : World :=
  (join Scenario.guildA Scenario.chanX (Reachable true) start).2.

(** Guild A is joined and has played a file. *)
Definition played : World := (play Scenario.guildA song None joined).2.

End Session.

(** ** Frames *)

Module Frame.

(** Two worlds that differ at most in the effects logged. *)
Definition sameButEffects (w w' : World) : Prop :=
  players w' = players w /\
  tempDir w' = tempDir w /\
  listenerOptions w' = listenerOptions w /\
  activeListeners w' = activeListeners w /\
  sets w' = sets w /\
  captures w' = captures w /\
  fresh w' = fresh w /\
  connections w' = connections w /\
  destroyUntracks w' = destroyUntracks w /\
  existing w' = existing w.

End Frame.

(** ** Listener options and what depends on them *)

Module Armed.

(** Nothing can call [processAudio]: no capture is running and no
    connection has a speaking handler. *)
Definition quiet (w : World) : Prop :=
  captures w = ∅ /\
  forall (g : string) (c : VoiceConnection),
    connections w !! g = Some c -> onSpeakingStart c = [].

(** The listener options are set, unless nothing can need them. *)
Definition optionsPresent (w : World) : Prop :=
  listenerOptions w <> None \/ quiet w.

End Armed.

(** ** The module's other accessors *)

Module Accessors.

(** [getActiveVoiceGuildIds]: the guilds that have a player and are
    connected. The module's manager is given with its state, or is undefined.
    The source enumerates the players in insertion order; the list here
    follows the map's own order, and only membership is relied on. *)
Definition getActiveVoiceGuildIds (voiceManager : option World) : list string :=
  match voiceManager with
  | None => []
  | Some w =>
      List.filter (fun guildId => isConnected guildId w)
                  (map_to_list (players w)).*1
  end.

(** [VoiceManager.destroy]: [leave] for every guild that has a player. The
    teardown of the gateway client that follows belongs to the library and is
    not part of this state. *)
Definition destroy (w : World) : World :=
  fold_left (fun w guildId => leave guildId w) (map_to_list (players w)).*1 w.

(** Every player belongs to a connection that is subscribed to it, and the
    registry holds no destroyed connection. *)
Definition subscribed (w : World) : Prop :=
  (forall (g : string) (p : AudioPlayer),
     players w !! g = Some p ->
     exists c : VoiceConnection,
       connections w !! g = Some c /\ subscription c = Some (player_id p)) /\
  (forall (g : string) (c : VoiceConnection),
     connections w !! g = Some c -> status c = Ready) /\
  destroyUntracks w = true.

End Accessors.

(** ** Shapes of strings *)

Module Shape.

(** Empty, or starting with a code unit that is not white space. *)
Definition startsTrimmed (s : jsstring) : Prop :=
  match s with
  | [] => True
  | c :: _ => isSpace c = false
  end.

End Shape.
Import Shape.

(** ** The voice tool *)

Module Tool.

Inductive Action : Type :=
| ActJoin | ActPlay | ActStop | ActLeave | ActTts | ActStatus | ActListen
| ActStopListen
| ActOther.                           (* any other string: the default branch *)

Record VoiceToolParams : Type := mkParams {
  action : Action;
  guildId : option string;
  channel : option string;            (* channelId *)
  filePath : option string;
  text : option string;
  volume : option Q;
  language : option string
}.

(** [cfg.channels?.discord?.token] and
    [cfg.channels?.discord?.accounts?.default?.token]. *)
Record MoltbotConfig : Type := mkConfig {
  cfg_token : option string;
  cfg_defaultAccountToken : option string
}.

(** [textToSpeech]'s answer. *)
Record TtsResult : Type := mkTts {
  tts_success : bool;
  tts_audioPath : option string;
  tts_error : option string
}.

(** The environment variables, and what the outside answers during one
    call. *)
Record ToolEnv : Type := mkToolEnv {
  DISCORD_BOT_TOKEN : option string;
  OPENAI_API_KEY : option string;
  loginOk : bool;                     (* the login of a manager built now resolves *)
  joinEnv : JoinEnv;
  mkdirOk : bool;
  playbackOk : bool;                  (* the player reaches idle without an error *)
  tts : TtsResult
}.

(** The two closures the tool passes as [onTranscription]. *)
Inductive Closure : Type :=
| VoiceSessionClosure (voiceSessionKey : string)       (* built by join *)
| AgentSessionClosure (agentSessionKey : option string). (* built by listen *)

(** The module variables of both files, the one manager's state, and the
    calls made to the TTS service. A callback is the index of its closure.
    [loginResolves] belongs to the manager: whether its ready promise
    resolves; the client of a manager whose login was rejected is taken
    never to become ready. *)
Record ToolState : Type := mkTool {
  singleton : Singleton.State;
  loginResolves : bool;
  world : World;
  activeVoiceGuildId : option string;
  globalTranscriptionCallback : option nat;
  closures : list Closure;
  ttsCalls : list string
}.

Definition set_singleton (v : Singleton.State) (ready : bool) (st : ToolState) : ToolState :=
  mkTool v ready (world st) (activeVoiceGuildId st) (globalTranscriptionCallback st)
         (closures st) (ttsCalls st).
Definition set_world (v : World) (st : ToolState) : ToolState :=
  mkTool (singleton st) (loginResolves st) v (activeVoiceGuildId st)
         (globalTranscriptionCallback st) (closures st) (ttsCalls st).
(** [setActiveVoiceGuild] *)
Definition setActiveVoiceGuild (v : option string) (st : ToolState) : ToolState :=
  mkTool (singleton st) (loginResolves st) (world st) v
         (globalTranscriptionCallback st) (closures st) (ttsCalls st).
Definition getActiveVoiceGuild (st : ToolState) : option string := activeVoiceGuildId st.
(** [setTranscriptionCallback] *)
Definition setTranscriptionCallback (v : option nat) (st : ToolState) : ToolState :=
  mkTool (singleton st) (loginResolves st) (world st) (activeVoiceGuildId st) v
         (closures st) (ttsCalls st).
Definition addClosure (c : Closure) (st : ToolState) : ToolState :=
  mkTool (singleton st) (loginResolves st) (world st) (activeVoiceGuildId st)
         (globalTranscriptionCallback st) (closures st ++ [c]) (ttsCalls st).
Definition callTts (s : string) (st : ToolState) : ToolState :=
  mkTool (singleton st) (loginResolves st) (world st) (activeVoiceGuildId st)
         (globalTranscriptionCallback st) (closures st) (ttsCalls st ++ [s]).

Definition newTool (w : World) : ToolState :=
  mkTool Singleton.initial false w None None [] [].

Inductive ErrorCode : Type :=
| missing_token | missing_params | not_connected | tts_failed | missing_api_key
| unknown_action.

(** What the [catch] of [handleVoiceAction] turns into a message. *)
Inductive Failure : Type :=
| ManagerThrew (e : Error)
| LoginRejected
| PlaybackFailed.

(** The [details] of a result; the text line renders the same data. *)
Inductive Details : Type :=
| DError (code : ErrorCode)
| DTtsFailed (message : string)             (* error: tts_failed, with the text shown *)
| DThrown (failure : Failure)               (* error: the message of what was thrown *)
| DJoined (guildId channelId : string) (listening : bool)
| DPlayed (guildId filePath : string)
| DGuild (guildId : string)                 (* stop, leave *)
| DSpoke (guildId text audioPath : string)
| DNotInitialized                           (* connected: false *)
| DStatus (guildId : string) (connected : bool) (channelId : option string)
          (listening : bool)
| DInitialized
| DListen (guildId : string) (listening : bool) (language : option string).

(** [a ?? b] *)
Definition nullish {A : Type} (a b : option A) : option A :=
  match a with
  | Some x => Some x
  | None => b
  end.

Definition resolveToken (env : ToolEnv) (cfg : MoltbotConfig) : option string :=
  nullish (nullish (DISCORD_BOT_TOKEN env) (cfg_token cfg)) (cfg_defaultAccountToken cfg).

(** Whether a call on the module variable built a manager. *)
Definition built (before after : Singleton.State) : bool :=
  negb (length (Singleton.constructed after) =? length (Singleton.constructed before))%nat.

(** [getVoiceManager(token)] on the module state; a manager built here
    starts its login, whose fate is the environment's. *)
Definition getVoiceManager (token : string) (env : ToolEnv) (st : ToolState)
  : option Singleton.Instance * ToolState :=
  let '(m, s) := Singleton.getVoiceManager (Some token) (singleton st) in
  (m, set_singleton s (if built (singleton st) s then loginOk env else loginResolves st) st).

(** [initVoiceManager(token)], which waits for the login of a manager it
    builds and for nothing when there is one already. *)
Definition initVoiceManager (token : string) (env : ToolEnv) (st : ToolState)
  : Singleton.InitOutcome * ToolState :=
  let '(r, s) := Singleton.initVoiceManager token (loginOk env) (singleton st) in
  (r, set_singleton s (if built (singleton st) s then loginOk env else loginResolves st) st).

(** [manager.join]: its first step waits for the login when the client is
    not ready yet, and throws what the login threw. *)
Definition managerJoin (g ch : string) (env : ToolEnv) (st : ToolState)
  : option Failure * ToolState :=
  if negb (loginResolves st) then (Some LoginRejected, st)
  else
    match join g ch (joinEnv env) (world st) with
    | (Returned _, w) => (None, set_world w st)
    | (Thrown e, w) => (Some (ManagerThrew e), set_world w st)
    end.

(** [await manager.play(...)]: the hand-off, then the end of playback. *)
Definition managerPlay (g f : string) (v : option Q) (env : ToolEnv) (st : ToolState)
  : option Failure * ToolState :=
  match play g f v (world st) with
  | (Thrown e, w) => (Some (ManagerThrew e), set_world w st)
  | (Returned _, w) =>
      (if playbackOk env then None else Some PlaybackFailed, set_world w st)
  end.

Definition managerStartListening (g : string) (options : VoiceListenerOptions)
  (env : ToolEnv) (st : ToolState) : option Failure * ToolState :=
  match startListening g options (mkdirOk env) (world st) with
  | (Returned _, w) => (None, set_world w st)
  | (Thrown e, w) => (Some (ManagerThrew e), set_world w st)
  end.

Definition handleVoiceAction (params : VoiceToolParams) (cfg : MoltbotConfig)
  (agentSessionKey : option string) (env : ToolEnv) (st : ToolState)
  : Details * ToolState :=
  let token := resolveToken env cfg in
  if negb (truthy token) then (DError missing_token, st)
  else
    let token := default EmptyString token in
    let g := default EmptyString (guildId params) in
    match action params with
    | ActJoin =>
        if negb (truthy (guildId params)) || negb (truthy (channel params))
        then (DError missing_params, st)
        else
          let ch := default EmptyString (channel params) in
          match initVoiceManager token env st with
          | (Singleton.LoginRejected, st1) => (DThrown LoginRejected, st1)
          | (Singleton.Resolved _, st1) =>
              match managerJoin g ch env st1 with
              | (Some failure, st2) => (DThrown failure, st2)
              | (None, st2) =>
                  (* Auto-start listening after join *)
                  if truthy (OPENAI_API_KEY env)
                  then
                    let st3 := setActiveVoiceGuild (Some g) st2 in
                    let onTranscription := length (closures st3) in
                    let st3 :=
                      addClosure (VoiceSessionClosure
                                    ("agent:main:discord:voice:" ++ ch)) st3 in
                    let options :=
                      mkOptions onTranscription None None (OPENAI_API_KEY env)
                                (Some (default "ja"%string (language params))) in
                    match managerStartListening g options env st3 with
                    | (Some failure, st4) => (DThrown failure, st4)
                    | (None, st4) => (DJoined g ch true, st4)
                    end
                  else (DJoined g ch false, st2)
              end
          end
    | ActPlay =>
        if negb (truthy (guildId params)) || negb (truthy (filePath params))
        then (DError missing_params, st)
        else
          let f := default EmptyString (filePath params) in
          match getVoiceManager token env st with
          | (None, st1) => (DError not_connected, st1)
          | (Some _, st1) =>
              match managerPlay g f (volume params) env st1 with
              | (Some failure, st2) => (DThrown failure, st2)
              | (None, st2) => (DPlayed g f, st2)
              end
          end
    | ActStop =>
        if negb (truthy (guildId params)) then (DError missing_params, st)
        else
          match getVoiceManager token env st with
          | (None, st1) => (DGuild g, st1)
          | (Some _, st1) => (DGuild g, set_world (stop g (world st1)) st1)
          end
    | ActLeave =>
        if negb (truthy (guildId params)) then (DError missing_params, st)
        else
          let st2 :=
            match getVoiceManager token env st with
            | (None, st1) => st1
            | (Some _, st1) => set_world (leave g (world st1)) st1
            end in
          (DGuild g, setActiveVoiceGuild None st2)
    | ActTts =>
        if negb (truthy (guildId params)) || negb (truthy (text params))
        then (DError missing_params, st)
        else
          let t := default EmptyString (text params) in
          match getVoiceManager token env st with
          | (None, st1) => (DError not_connected, st1)
          | (Some _, st1) =>
              if negb (isConnected g (world st1)) then (DError not_connected, st1)
              else
                (* Generate TTS audio *)
                let st2 := callTts t st1 in
                let ttsResult := tts env in
                if negb (tts_success ttsResult) || negb (truthy (tts_audioPath ttsResult))
                then (DTtsFailed (default "TTS failed"%string (tts_error ttsResult)), st2)
                else
                  (* Play the generated audio *)
                  let audioPath := default EmptyString (tts_audioPath ttsResult) in
                  match managerPlay g audioPath (volume params) env st2 with
                  | (Some failure, st3) => (DThrown failure, st3)
                  | (None, st3) => (DSpoke g t audioPath, st3)
                  end
          end
    | ActStatus =>
        match getVoiceManager token env st with
        | (None, st1) => (DNotInitialized, st1)
        | (Some _, st1) =>
            if truthy (guildId params)
            then
              (DStatus g (isConnected g (world st1)) (getChannelId g (world st1))
                       (isListening g (world st1)), st1)
            else (DInitialized, st1)
        end
    | ActListen =>
        if negb (truthy (guildId params)) then (DError missing_params, st)
        else
          match getVoiceManager token env st with
          | (None, st1) => (DError not_connected, st1)
          | (Some _, st1) =>
              if negb (isConnected g (world st1)) then (DError not_connected, st1)
              else if negb (truthy (OPENAI_API_KEY env))
              then (DError missing_api_key, st1)
              else
                let onTranscription := length (closures st1) in
                let st2 := addClosure (AgentSessionClosure agentSessionKey) st1 in
                let lang := default "ja"%string (language params) in
                let options :=
                  mkOptions onTranscription None None (OPENAI_API_KEY env) (Some lang) in
                match managerStartListening g options env st2 with
                | (Some failure, st3) => (DThrown failure, st3)
                | (None, st3) => (DListen g true (Some lang), st3)
                end
          end
    | ActStopListen =>
        if negb (truthy (guildId params)) then (DError missing_params, st)
        else
          match getVoiceManager token env st with
          | (None, st1) => (DListen g false None, st1)
          | (Some _, st1) =>
              (DListen g false None, set_world (stopListening g (world st1)) st1)
          end
    | ActOther => (DError unknown_action, st)
    end.

End Tool.

(** ** A tool session used to run the model *)

Module ToolSession.
Import Tool.

(** The token comes from the configuration; the key for Whisper is set. *)
Definition cfg : MoltbotConfig := mkConfig (Some "bot-token"%string) None.
Definition env : ToolEnv :=
  mkToolEnv None (Some "sk-test"%string) true (Reachable true) true true
            (mkTts true (Some Session.song) None).
(** The same, with a login that fails. *)
Definition offline : ToolEnv :=
  mkToolEnv None (Some "sk-test"%string) false (Reachable true) true true
            (mkTts true (Some Session.song) None).

Definition joinA : VoiceToolParams :=
  mkParams ActJoin (Some Scenario.guildA) (Some Scenario.chanX) None None None None.
Definition leaveA : VoiceToolParams :=
  mkParams ActLeave (Some Scenario.guildA) None None None None None.
Definition listenA : VoiceToolParams :=
  mkParams ActListen (Some Scenario.guildA) None None None None (Some "en"%string).

Definition start : ToolState := newTool Session.start.
Definition joined : ToolState := (handleVoiceAction joinA cfg None env start).2.

End ToolSession.

(** * Properties *)

Example noise_hai : isNoiseTranscript hai_maru = true.
Proof. reflexivity. Qed.

Example noise_sentence : isNoiseTranscript (ofString "please play the next song") = false.
Proof. vm_compute. reflexivity. Qed.

Example wav_call_site :
  pcmToWav [1; 2; 3; 4] 48000 2 16 =
  Ok (canonicalHeader 4 48000 2 16 ++ [1; 2; 3; 4]).
Proof. vm_compute. reflexivity. Qed.

(** ** WAV encoder *)

Section WavFacts.

Lemma land_255 v : Z.land v 255 = v mod 2 ^ 8.
Proof. change 255 with (Z.ones 8). apply Z.land_ones. lia. Qed.

Lemma le16_sum v :
  0 <= v <= 0xFFFF ->
  Z.land v 255 + Z.land (Z.shiftr v 8) 255 * 2 ^ 8 = v.
Proof.
  intros Hv. rewrite !land_255, !Z.shiftr_div_pow2 by lia.
  change (2 ^ 8) with 256. Z.div_mod_to_equations. lia.
Qed.

Lemma le32_sum v :
  0 <= v <= 0xFFFFFFFF ->
  Z.land v 255 + Z.land (Z.shiftr v 8) 255 * 2 ^ 8 +
  Z.land (Z.shiftr (Z.shiftr v 8) 8) 255 * 2 ^ 16 +
  Z.land (Z.shiftr (Z.shiftr (Z.shiftr v 8) 8) 8) 255 * 2 ^ 24 = v.
Proof.
  intros Hv. rewrite !land_255, !Z.shiftr_div_pow2 by lia.
  change (2 ^ 8) with 256. change (2 ^ 16) with 65536. change (2 ^ 24) with 16777216.
  Z.div_mod_to_equations. lia.
Qed.

(** Reading back what a writer laid out. *)
Lemma le16_roundtrip v :
  0 <= v <= 0xFFFF -> readUInt16LE (le16 v) 0 = Some v.
Proof. intros Hv. unfold readUInt16LE, le16. cbn. by rewrite le16_sum. Qed.

Lemma le32_roundtrip v :
  0 <= v <= 0xFFFFFFFF -> readUInt32LE (le32 v) 0 = Some v.
Proof. intros Hv. unfold readUInt32LE, le32. cbn. by rewrite le32_sum. Qed.

Lemma Qltb_inject a b : Qltb (inject_Z a) (inject_Z b) = (a <? b).
Proof.
  unfold Qltb, Qle_bool, inject_Z. cbn [Qnum Qden].
  rewrite !Z.mul_1_r. symmetry. apply Z.ltb_antisym.
Qed.

Lemma Qltb_inject_div8_r a n : Qltb (inject_Z a) (inject_Z n / 8) = (8 * a <? n).
Proof.
  unfold Qltb, Qle_bool, Qdiv, Qmult, Qinv, inject_Z. cbn [Qnum Qden].
  rewrite Z.ltb_antisym. f_equal. f_equal; lia.
Qed.

Lemma Qltb_inject_div8_l a n : Qltb (inject_Z n / 8) (inject_Z a) = (n <? 8 * a).
Proof.
  unfold Qltb, Qle_bool, Qdiv, Qmult, Qinv, inject_Z. cbn [Qnum Qden].
  rewrite Z.ltb_antisym. f_equal. f_equal; lia.
Qed.

Lemma Qfloor_inject_div8 n : Qfloor (inject_Z n / 8) = n / 8.
Proof.
  unfold Qfloor, Qdiv, Qmult, Qinv, inject_Z. cbn [Qnum Qden].
  f_equal. lia.
Qed.

(** [checkInt] on an integer, and on an eighth of an integer. *)
Lemma checkInt_int v max :
  checkInt (inject_Z v) 0 max =
  if (max <? v) || (v <? 0) then RangeError (inject_Z v) else Ok tt.
Proof. unfold checkInt. by rewrite !Qltb_inject. Qed.

Lemma checkInt_div8 n max :
  checkInt (inject_Z n / 8) 0 max =
  if (8 * max <? n) || (n <? 0) then RangeError (inject_Z n / 8)%Q else Ok tt.
Proof.
  unfold checkInt. rewrite Qltb_inject_div8_r, Qltb_inject_div8_l.
  by rewrite Z.mul_0_r.
Qed.

End WavFacts.

Section WavEncoder.

Lemma in_range_false v max : 0 <= v <= max -> (max <? v) || (v <? 0) = false.
Proof. intros Hv. apply orb_false_intro; apply Z.ltb_ge; lia. Qed.

Lemma out_of_range_true v max : ~ 0 <= v <= max -> (max <? v) || (v <? 0) = true.
Proof.
  intros Hv. apply orb_true_iff.
  destruct (Z.ltb_spec max v); [by left | right; apply Z.ltb_lt; lia].
Qed.

Variables (pcm : Buffer) (sampleRate channels bitsPerSample : Z).

Let dataSize : Z := Z.of_nat (length pcm).

(** For values that fit the fields the encoder returns the canonical header
    followed by the samples. *)
Lemma pcmToWav_fits :
  fitsHeader dataSize sampleRate channels bitsPerSample ->
  pcmToWav pcm sampleRate channels bitsPerSample =
  Ok (canonicalHeader dataSize sampleRate channels bitsPerSample ++ pcm).
Proof.
  intros (Hsr & Hch & Hbits & Hrate & Halign & Hsize).
  assert (0 <= channels * bitsPerSample) by (apply Z.mul_nonneg_nonneg; lia).
  assert (0 <= sampleRate * channels * bitsPerSample).
  { rewrite <- Z.mul_assoc. apply Z.mul_nonneg_nonneg; lia. }
  assert (0 <= dataSize) by (subst dataSize; lia).
  unfold pcmToWav, writeUInt32LE, writeUInt16LE.
  rewrite !checkInt_int, !checkInt_div8.
  rewrite !in_range_false by (fold dataSize; lia).
  cbn [bind]. rewrite !Qfloor_Z, !Qfloor_inject_div8.
  fold dataSize. reflexivity.
Qed.

(** Otherwise one of the writers throws. *)
Lemma pcmToWav_throws :
  ~ fitsHeader dataSize sampleRate channels bitsPerSample ->
  exists value, pcmToWav pcm sampleRate channels bitsPerSample = RangeError value.
Proof.
  intros Hnot. unfold pcmToWav, writeUInt32LE, writeUInt16LE.
  rewrite !checkInt_int, !checkInt_div8. fold dataSize.
  assert (0 <= dataSize) by (subst dataSize; lia).
  repeat match goal with
  | |- context [if (?m <? ?v) || (?v <? 0) then _ else _] =>
      let Hin := fresh "Hin" in
      destruct (decide (0 <= v <= m)) as [Hin | Hin];
      [ rewrite (in_range_false v m Hin); cbn [bind]
      | rewrite (out_of_range_true v m Hin); cbn [bind]; eauto ]
  end.
  exfalso. apply Hnot. unfold fitsHeader. lia.
Qed.

End WavEncoder.

(** C2, as amended. For every PCM buffer and all integer sample rates,
    channel counts and bit depths that fit the header's fields (the three
    values, the byte rate, the block alignment and the RIFF size each within
    its 16- or 32-bit field), [pcmToWav] returns a header of exactly 44
    bytes followed by the samples; the little-endian word at offset 40 is
    the PCM byte length, and the words at offsets 24, 22 and 34 decode to the
    sample rate, the channel count and the bit depth. *)
Theorem pcmToWav_header_roundtrip (pcm : Buffer) (sampleRate channels bitsPerSample : Z) :
  fitsHeader (Z.of_nat (length pcm)) sampleRate channels bitsPerSample ->
  wellEncoded pcm sampleRate channels bitsPerSample
    (pcmToWav pcm sampleRate channels bitsPerSample).
Proof.
  intros Hfits.
  exists (canonicalHeader (Z.of_nat (length pcm)) sampleRate channels bitsPerSample).
  split; [by apply pcmToWav_fits |].
  destruct Hfits as (Hsr & Hch & Hbits & Hrate & Halign & Hsize).
  split; [reflexivity |].
  unfold readUInt32LE, readUInt16LE, canonicalHeader, le32, le16. cbn.
  rewrite !le32_sum, !le16_sum by lia. done.
Qed.

Lemma pcmToWav_header_roundtrip_witness :
  fitsHeader (Z.of_nat (length [0; 1; 2; 3])) 48000 2 16 /\
  wellEncoded [0; 1; 2; 3] 48000 2 16 (pcmToWav [0; 1; 2; 3] 48000 2 16).
Proof.
  assert (H : fitsHeader (Z.of_nat (length [0; 1; 2; 3])) 48000 2 16)
    by (unfold fitsHeader; simpl; lia).
  split; [exact H | exact (pcmToWav_header_roundtrip [0; 1; 2; 3] 48000 2 16 H)].
Defined.

(** C2, as stated, fails: a channel count of 65536 does not fit the 16-bit
    field at offset 22, and [writeUInt16LE] throws instead of encoding. *)
Lemma pcmToWav_rejects_65536_channels :
  pcmToWav [] 48000 65536 16 = RangeError (inject_Z 65536) /\
  ~ wellEncoded [] 48000 65536 16 (pcmToWav [] 48000 65536 16).
Proof.
  assert (H : pcmToWav [] 48000 65536 16 = RangeError (inject_Z 65536))
    by (vm_compute; reflexivity).
  split; [exact H |].
  rewrite H. intros (header & Hout & _). discriminate Hout.
Qed.

(** ** The matcher decides the language of a pattern *)

Section RegexFacts.

Lemma lang_cat_inv r1 r2 s :
  lang (Cat r1 r2) s -> exists s1 s2, s = s1 ++ s2 /\ lang r1 s1 /\ lang r2 s2.
Proof. inversion 1; subst; eauto. Qed.

Lemma nullable_lang r : nullable r = true <-> lang r [].
Proof.
  induction r as [| | p | r1 IH1 r2 IH2 | r1 IH1 r2 IH2 | r IH]; cbn [nullable].
  - split; [discriminate | inversion 1].
  - split; [constructor | done].
  - split; [discriminate | inversion 1].
  - rewrite andb_true_iff, IH1, IH2. split.
    + intros [H1 H2]. by apply (L_Cat _ _ [] []).
    + intros H. apply lang_cat_inv in H as (s1 & s2 & Heq & H1 & H2).
      symmetry in Heq. apply app_eq_nil in Heq as [-> ->]. done.
  - rewrite orb_true_iff, IH1, IH2. split.
    + intros [H | H]; [by apply L_AltL | by apply L_AltR].
    + inversion 1; subst; [by left | by right].
  - split; [constructor | done].
Qed.

(** A non-empty word of [Star r] starts with a non-empty word of [r]. *)
Lemma lang_star_cons r c s :
  lang (Star r) (c :: s) ->
  exists s1 s2, s = s1 ++ s2 /\ lang r (c :: s1) /\ lang (Star r) s2.
Proof.
  intros H. remember (Star r) as r' eqn:Hr. remember (c :: s) as w eqn:Hw.
  revert s Hw.
  induction H as [| | | | | |r0 w1 w2 H1 _ H2 IH2]; intros u Hw; try discriminate.
  injection Hr as ->. destruct w1 as [|c1 w1].
  - cbn in Hw. by apply IH2.
  - cbn in Hw. injection Hw as -> <-. by exists w1, w2.
Qed.

Lemma deriv_lang c r s : lang (deriv c r) s <-> lang r (c :: s).
Proof.
  revert s.
  induction r as [| | p | r1 IH1 r2 IH2 | r1 IH1 r2 IH2 | r IH]; intros s; cbn [deriv].
  - split; inversion 1.
  - split; inversion 1.
  - destruct (p c) eqn:Hp; split.
    + inversion 1; subst. by constructor.
    + inversion 1; subst. constructor.
    + inversion 1.
    + inversion 1; subst. congruence.
  - assert (Hcat : lang (Cat (deriv c r1) r2) s -> lang (Cat r1 r2) (c :: s)).
    { intros H. apply lang_cat_inv in H as (s1 & s2 & -> & H1 & H2).
      apply IH1 in H1. by apply (L_Cat _ _ (c :: s1) s2). }
    assert (Hback : lang (Cat r1 r2) (c :: s) ->
                    lang (Cat (deriv c r1) r2) s \/ (lang r1 [] /\ lang r2 (c :: s))).
    { intros H. apply lang_cat_inv in H as (s1 & s2 & Heq & H1 & H2).
      destruct s1 as [|c1 s1]; cbn in Heq.
      - right. by subst.
      - injection Heq as <- ->. left. apply L_Cat; [by apply IH1 | done]. }
    destruct (nullable r1) eqn:Hn; split.
    + inversion 1; subst; [by apply Hcat |].
      apply (L_Cat _ _ [] (c :: s)); [by apply nullable_lang | by apply IH2].
    + intros H. destruct (Hback H) as [H' | [_ H2]];
        [by apply L_AltL | apply L_AltR; by apply IH2].
    + apply Hcat.
    + intros H. destruct (Hback H) as [H' | [H1 _]]; [done |].
      apply nullable_lang in H1. congruence.
  - split.
    + inversion 1; subst; [apply L_AltL; by apply IH1 | apply L_AltR; by apply IH2].
    + inversion 1; subst; [apply L_AltL; by apply IH1 | apply L_AltR; by apply IH2].
  - split.
    + intros H. apply lang_cat_inv in H as (s1 & s2 & -> & H1 & H2).
      apply IH in H1. by apply (L_StarS _ (c :: s1) s2).
    + intros H. apply lang_star_cons in H as (s1 & s2 & -> & H1 & H2).
      apply L_Cat; [by apply IH | done].
Qed.

Lemma fullMatch_lang r s : fullMatch r s = true <-> lang r s.
Proof.
  revert r. induction s as [|c s IH]; intros r; cbn [fullMatch].
  - apply nullable_lang.
  - rewrite IH. apply deriv_lang.
Qed.

Lemma lang_star_any s : lang (Star Any) s.
Proof.
  induction s as [|c s IH]; [constructor |].
  apply (L_StarS _ [c] s); [by constructor | done].
Qed.

(** [/^r/] matches exactly when a prefix of the input is in the language. *)
Lemma prefixMatch_lang r s :
  prefixMatch r s = true <-> exists s1 s2, s = s1 ++ s2 /\ lang r s1.
Proof.
  unfold prefixMatch. rewrite fullMatch_lang. split.
  - intros H. apply lang_cat_inv in H as (s1 & s2 & -> & H1 & _). eauto.
  - intros (s1 & s2 & -> & H). apply L_Cat; [done | apply lang_star_any].
Qed.

End RegexFacts.

(** ** Noise classifier *)

(** A run of a character that is not white space is its own trim. *)
Lemma trim_replicate (c : Z) (n : nat) :
  isSpace c = false -> trim (replicate n c) = replicate n c.
Proof.
  intros Hc. unfold trim, trimEnd.
  assert (Hstart : forall k, trimStart (replicate k c) = replicate k c).
  { intros [| k]; [done |]. cbn. by rewrite Hc. }
  assert (Hrev : forall k, rev (replicate k c) = replicate k c).
  { intros k. rewrite rev_alt. apply (reverse_replicate k c). }
  by rewrite Hstart, Hrev, Hstart, Hrev.
Qed.

Lemma lang_plus_replicate (c : Z) (n : nat) :
  lang (Plus (Chr c)) (replicate (S n) c).
Proof.
  unfold Plus. change (replicate (S n) c) with ([c] ++ replicate n c).
  apply L_Cat; [constructor; apply Z.eqb_refl |].
  induction n as [| n IH]; [constructor |].
  change (replicate (S n) c) with ([c] ++ replicate n c).
  apply L_StarS; [constructor; apply Z.eqb_refl | done].
Qed.

(** [ん+] in full: any number of repetitions is noise, however long. *)
Lemma isNoiseTranscript_n_run (n : nat) :
  isNoiseTranscript (replicate (S n) 0x3093) = true.
Proof.
  unfold isNoiseTranscript. rewrite trim_replicate by reflexivity.
  destruct (_ <? 3); [done |].
  apply existsb_exists.
  exists (Anchored (Cat (Plus (Chr 0x3093)) stopOpt)). split; [by left |].
  cbn [test]. apply fullMatch_lang.
  rewrite <- (app_nil_r (replicate (S n) 0x3093)).
  apply L_Cat; [apply lang_plus_replicate | apply L_AltR; constructor].
Qed.


(** ** Playback controller *)

(** C6. For every guild, [play] throws [NotConnected] when the guild has no
    voice connection, and throws [FileNotFound] when it has one and the
    resolved path does not exist; in both cases the state it returns is the
    state it was given, so no player is created or stored and an existing
    player is untouched. *)
Theorem play_failure_keeps_state
  (guildId filePath : string) (volume : option Q) (w : World) :
  (getVoiceConnection guildId w = None ->
   play guildId filePath volume w = (Thrown (NotConnected guildId), w)) /\
  (is_Some (getVoiceConnection guildId w) ->
   existsSync (resolve filePath) w = false ->
   play guildId filePath volume w = (Thrown (FileNotFound (resolve filePath)), w)).
Proof.
  split.
  - intros Hnone. unfold play. by rewrite Hnone.
  - intros [connection Hsome] Hmissing. unfold play. by rewrite Hsome, Hmissing.
Qed.

(** The players of every guild are the same after a failed [play]. *)
Corollary play_failure_keeps_players
  (guildId filePath : string) (volume : option Q) (w : World) (e : Error) :
  (play guildId filePath volume w).1 = Thrown e ->
  (play guildId filePath volume w).2 = w.
Proof.
  unfold play. destruct (getVoiceConnection guildId w) as [connection|]; [| done].
  destruct (existsSync (resolve filePath) w); [| done].
  cbn [negb]. destruct (players w !! guildId); cbn; discriminate.
Qed.

(** A connected guild and an existing file: the player is created on the
    first call and reused afterwards. *)
Lemma play_reuses_player
  (guildId filePath : string) (volume : option Q) (w : World)
  (connection : VoiceConnection) (player : AudioPlayer) :
  getVoiceConnection guildId w = Some connection ->
  existsSync (resolve filePath) w = true ->
  players w !! guildId = Some player ->
  players (play guildId filePath volume w).2 !! guildId =
    Some (mkPlayer (player_id player) (Some (resolve filePath, volume))).
Proof.
  intros Hc Hf Hp. unfold play. rewrite Hc, Hf, Hp. cbn.
  apply lookup_insert_eq.
Qed.

(** ** Audio processing *)

Section AudioProcessing.
Context {number : Type} `{JsNumber number}.

(** [transcribeWithWhisper] only adds to the effects, and never deletes a
    file. *)
Lemma transcribeWithWhisper_effects (f : TempFile) (env : Env number) (w : World) :
  exists during,
    effects (transcribeWithWhisper f env w).2 = effects w ++ during /\
    Forall (fun e => isUnlink e = false /\ isOnTranscription e = false) during.
Proof.
  unfold transcribeWithWhisper.
  destruct (negb (truthy _)); [exists []; by rewrite app_nil_r |].
  destruct (env_whisper env) as [| | status body | result];
    [exists []; by rewrite app_nil_r | | |].
  - eexists [_]. split; [reflexivity | by repeat constructor].
  - eexists [_]. split; [reflexivity | by repeat constructor].
  - destruct (lowConfidence result).
    + eexists [_; _]. cbn. rewrite <- app_assoc. split; [reflexivity | by repeat constructor].
    + eexists [_]. split; [reflexivity | by repeat constructor].
Qed.

Lemma transcribeAndDeliver_effects (options : VoiceListenerOptions)
  (g u name ch : string) (f : TempFile) (env : Env number) (w : World) :
  exists during,
    effects (transcribeAndDeliver options g u name ch f env w).2 = effects w ++ during /\
    Forall (fun e => isUnlink e = false) during.
Proof.
  unfold transcribeAndDeliver.
  destruct (transcribeWithWhisper_effects f env w) as (during & Heff & Hall).
  assert (Hall' : Forall (fun e => isUnlink e = false) during).
  { eapply Forall_impl; [exact Hall | by intros e [? _]]. }
  destruct (transcribeWithWhisper f env w) as [[transcript | e] w1]; cbn in Heff;
    [| by exists during].
  destruct transcript as [text |]; cbn [fmap option_fmap option_map]; [| by exists during].
  destruct (nonEmpty _ && negb _); [| by exists during].
  exists (during ++ [OnTranscription (onTranscription options) u name (trim text) g ch]).
  split.
  - destruct (env_callback env); cbn; rewrite Heff; by rewrite <- app_assoc.
  - apply Forall_app. split; [done | by repeat constructor].
Qed.

Lemma transcribeWithWhisper_unlink_irrelevant (b : bool) (f : TempFile)
  (env : Env number) (w : World) :
  transcribeWithWhisper f (withUnlink b env) w = transcribeWithWhisper f env w.
Proof. reflexivity. Qed.

Lemma transcribeAndDeliver_unlink_irrelevant (b : bool)
  (options : VoiceListenerOptions) (g u name ch : string) (f : TempFile)
  (env : Env number) (w : World) :
  transcribeAndDeliver options g u name ch f (withUnlink b env) w =
  transcribeAndDeliver options g u name ch f env w.
Proof. reflexivity. Qed.

End AudioProcessing.

(** C9. For every utterance whose WAV file has been written, whatever the
    transcription does (returns a transcript, returns none because the
    confidence filter rejected it, or throws) and whatever the callback
    does: the effects of [processAudio] are the file write, then those of the
    transcription and delivery, then one unlink of that file, and no other
    unlink; and the outcome of [processAudio] is the same whether the unlink
    succeeds or fails. *)
Theorem processAudio_unlinks_once {number : Type} `{JsNumber number}
  (guildId userId : string) (chunks : list Buffer) (env : Env number) (w : World)
  (options : VoiceListenerOptions) (wavBuffer : Buffer) :
  listenerOptions w = Some options ->
  pcmToWav (concat chunks) 48000 2 16 = Ok wavBuffer ->
  env_writeFile env = true ->
  let tempFile := mkTempFile (tempDir w) guildId userId (env_now env) in
  (exists during,
     effects (processAudio guildId userId chunks env w).2 =
       effects w ++ [WriteFile tempFile wavBuffer] ++ during ++
       [Unlink tempFile (env_unlink env)] /\
     Forall (fun e => isUnlink e = false) during) /\
  (forall b : bool,
     (processAudio guildId userId chunks (withUnlink b env) w).1 =
     (processAudio guildId userId chunks env w).1).
Proof.
  intros Hopts Hwav Hwrite tempFile. split.
  - unfold processAudio. rewrite Hopts, Hwav, Hwrite. cbn [negb withUnlink].
    set (ch := match getVoiceConnection guildId w with
               | Some connection => channelId connection
               | None => EmptyString
               end).
    set (w1 := emit _ w).
    destruct (transcribeAndDeliver_effects options guildId userId
                (default userId (env_displayName env)) ch tempFile env w1)
      as (during & Heff & Hall).
    fold tempFile.
    destruct (transcribeAndDeliver _ _ _ _ _ _ _ _) as [outcome w2].
    exists during. split; [| done].
    cbn in Heff |- *. rewrite Heff. subst w1. cbn. by rewrite <- !app_assoc.
  - intros b. unfold processAudio. rewrite Hopts, Hwav. cbn [withUnlink env_writeFile env_now env_displayName].
    rewrite Hwrite. cbn [negb].
    rewrite transcribeAndDeliver_unlink_irrelevant.
    by destruct (transcribeAndDeliver _ _ _ _ _ _ _ _).
Qed.

Lemma processAudio_unlinks_once_witness :
  let w := set_captures ∅ (run Scenario.capturingAlice Scenario.start) in
  let env := Scenario.answers (1 # 5) in
  let file := mkTempFile "/tmp/clawdbot-voice" Scenario.guildA Scenario.alice 1700000000000 in
  listenerOptions w = Some Scenario.optionsA /\
  env_writeFile env = true /\
  (exists during,
     effects (processAudio Scenario.guildA Scenario.alice [Scenario.chunk] env w).2 =
       effects w ++ [WriteFile file (canonicalHeader 4 48000 2 16 ++ Scenario.chunk)] ++
       during ++ [Unlink file true] /\
     Forall (fun e => isUnlink e = false) during).
Proof.
  intros w env file.
  assert (Hwav : pcmToWav (concat [Scenario.chunk]) 48000 2 16 =
                 Ok (canonicalHeader 4 48000 2 16 ++ Scenario.chunk))
    by (vm_compute; reflexivity).
  destruct (processAudio_unlinks_once Scenario.guildA Scenario.alice [Scenario.chunk]
              env w Scenario.optionsA _ eq_refl Hwav eq_refl) as [Honce _].
  exact (conj eq_refl (conj eq_refl Honce)).
Defined.

(** The three fates of a transcription, each followed by one unlink: a
    transcript that is delivered, one that the confidence filter drops, and
    a request that the API refuses; and an unlink that fails changes
    nothing else. *)
Example unlink_follows_every_outcome :
  let w := run Scenario.capturingAlice Scenario.start in
  let refused := mkEnv None 1700000000000 true None (HttpError 500 "oops") true false in
  let unlinks (env : Env Q) :=
    List.filter isUnlink (effects (run [DecoderEnd 1 700 env] w)) in
  let file := mkTempFile "/tmp/clawdbot-voice" Scenario.guildA Scenario.alice 1700000000000 in
  unlinks (Scenario.answers (1 # 5)) = [Unlink file true] /\
  unlinks (Scenario.answers (3 # 5)) = [Unlink file true] /\
  unlinks refused = [Unlink file false].
Proof. vm_compute. repeat split; reflexivity. Qed.

(** ** Confidence filter *)

Section ConfidenceFilter.
Context {number : Type} `{JsNumber number}.


(** A response without segments, or with an empty list, passes the filter. *)
Lemma lowConfidence_no_segments (result : WhisperVerboseResponse number) :
  segments result = None \/ segments result = Some [] ->
  lowConfidence result = false.
Proof. unfold lowConfidence. by intros [-> | ->]. Qed.



End ConfidenceFilter.



(** ** Utterance tracker *)

Section Tracker.

(** A speaking-start for a user who is in the guild's listener set changes
    nothing: no buffer, no subscription. *)
Lemma handleSpeakingStart_skips (guildId userId : string) (opts : CaptureOpts)
  (now : Z) (w : World) (l : loc) (members : gset string) :
  activeListeners w !! guildId = Some l ->
  sets w !! l = Some members ->
  userId ∈ members ->
  handleSpeakingStart guildId userId opts now w = w.
Proof.
  intros Hl Hm Hin. unfold handleSpeakingStart. rewrite Hl, Hm. cbn.
  by rewrite bool_decide_eq_true_2.
Qed.

(** Otherwise it registers the user, subscribes, and starts a capture with
    an empty buffer. *)
Lemma handleSpeakingStart_starts (guildId userId : string) (opts : CaptureOpts)
  (now : Z) (w : World) (l : loc) (members : gset string) :
  activeListeners w !! guildId = Some l ->
  sets w !! l = Some members ->
  userId ∉ members ->
  let w' := handleSpeakingStart guildId userId opts now w in
  captures w' = <[fresh w := mkCapture guildId userId l [] now opts]> (captures w) /\
  sets w' = <[l := members ∪ {[userId]}]> (sets w) /\
  effects w' = effects w ++ [Subscribe guildId userId (silenceThreshold opts)].
Proof.
  intros Hl Hm Hin. unfold handleSpeakingStart. rewrite Hl, Hm. cbn.
  by rewrite bool_decide_eq_false_2.
Qed.

Lemma stopListening_forgets (guildId : string) (w : World) :
  activeListeners (stopListening guildId w) !! guildId = None /\
  captures (stopListening guildId w) = captures w /\
  fresh (stopListening guildId w) = fresh w /\
  effects (stopListening guildId w) = effects w.
Proof.
  unfold stopListening. destruct (activeListeners w !! guildId) eqn:Hl; cbn.
  - by rewrite lookup_delete_eq.
  - by rewrite Hl.
Qed.

End Tracker.

(** C1, at the failing input. A capture of a user is running; [stopListening]
    empties and forgets the guild's listener set but leaves the capture
    running; the next speaking-start of the same user then passes the
    membership test and starts a second capture with its own buffer and its
    own subscription, next to the first. *)
Theorem stopListening_defeats_dedup
  (guildId userId : string) (opts : CaptureOpts) (now : Z) (w : World)
  (id : nat) (c : Capture) :
  captures w !! id = Some c ->
  cap_guild c = guildId ->
  cap_user c = userId ->
  (id < fresh w)%nat ->
  let w' := handleSpeakingStart guildId userId opts now (stopListening guildId w) in
  let id' := S (fresh w) in
  id' <> id /\
  captures w' !! id = Some c /\
  captures w' !! id' = Some (mkCapture guildId userId (fresh w) [] now opts) /\
  effects w' = effects w ++ [Subscribe guildId userId (silenceThreshold opts)].
Proof.
  intros Hc Hg Hu Hfresh w' id'.
  destruct (stopListening_forgets guildId w) as (Hnone & Hcaps & Hfr & Heff).
  subst w' id'. unfold handleSpeakingStart. rewrite Hnone, Hfr. cbn.
  rewrite lookup_insert_eq. cbn.
  rewrite bool_decide_eq_false_2 by set_solver. cbn.
  rewrite Hcaps, Heff.
  split; [lia |]. split; [| split; [| done]].
  - rewrite lookup_insert_ne by lia. done.
  - by rewrite lookup_insert_eq.
Qed.

Lemma stopListening_defeats_dedup_witness :
  let w := run Scenario.capturingAlice Scenario.start in
  let c := mkCapture Scenario.guildA Scenario.alice 0 [Scenario.chunk] 0
                     (captureOpts Scenario.optionsA) in
  let w' := handleSpeakingStart Scenario.guildA Scenario.alice
              (captureOpts Scenario.optionsA) 200
              (stopListening Scenario.guildA w) in
  captures w !! 1%nat = Some c /\
  (1 < fresh w)%nat /\
  captures w' !! 1%nat = Some c /\
  captures w' !! 3%nat =
    Some (mkCapture Scenario.guildA Scenario.alice 2 [] 200
                    (captureOpts Scenario.optionsA)).
Proof.
  intros w c w'.
  assert (Hc : captures w !! 1%nat = Some c) by (vm_compute; reflexivity).
  assert (Hfresh : (1 < fresh w)%nat) by (vm_compute; lia).
  destruct (stopListening_defeats_dedup Scenario.guildA Scenario.alice
              (captureOpts Scenario.optionsA) 200 w 1 c Hc eq_refl eq_refl Hfresh)
    as (_ & Hold & Hnew & _).
  exact (conj Hc (conj Hfresh (conj Hold Hnew))).
Defined.

(** The same session through the event interface: after the second
    speaking-start two captures of the same user in the same guild run at
    once. *)
Example two_captures_after_stopListening :
  let w := run (Scenario.capturingAlice ++
                [StopListening Scenario.guildA;
                 SpeakingStart Scenario.guildA Scenario.alice 200])
               Scenario.start in
  length (capturing Scenario.guildA Scenario.alice w) = 2%nat /\
  List.filter (fun e => match e with Subscribe _ _ _ => true | _ => false end)
              (effects w) =
    [Subscribe Scenario.guildA Scenario.alice 1500;
     Subscribe Scenario.guildA Scenario.alice 1500].
Proof. vm_compute. split; reflexivity. Qed.

(** Without [stopListening] in between, the second speaking-start is
    skipped. *)
Example second_start_is_skipped :
  let w := run Scenario.capturingAlice Scenario.start in
  run [SpeakingStart Scenario.guildA Scenario.alice 200] w = w.
Proof. vm_compute. reflexivity. Qed.

(** C5. When a capture ends with an elapsed duration below the minimum
    speech duration it was started with (500 ms when none was configured),
    or with no chunk collected, the end handler has no effect on the outside:
    no file is written and no transcription is requested; the capture is
    gone; and the user is no longer in the listener set the capture had
    registered them in. *)
Theorem short_capture_is_discarded {number : Type} `{JsNumber number}
  (id : nat) (c : Capture) (now : Z) (env : Env number) (w : World) :
  captures w !! id = Some c ->
  now - cap_startTime c < minSpeechDuration (cap_opts c) \/ cap_chunks c = [] ->
  let w' := decoderEnd id now env w in
  effects w' = effects w /\
  captures w' = delete id (captures w) /\
  (forall members : gset string,
     sets w' !! cap_listeners c = Some members -> cap_user c ∉ members) /\
  (forall options : VoiceListenerOptions,
     opt_minSpeechDuration options = None ->
     minSpeechDuration (captureOpts options) = 500).
Proof.
  intros Hc Hshort w'.
  assert (Hw' : w' = set_captures (delete id (captures w)) (releaseListener c w)).
  { subst w'. unfold decoderEnd. rewrite Hc.
    destruct Hshort as [Hd | Hnil].
    - by rewrite (proj2 (Z.ltb_lt _ _) Hd).
    - rewrite Hnil. cbn [length]. by rewrite orb_true_r. }
  rewrite Hw'. cbn. split; [done |]. split; [done |]. split.
  - intros members. rewrite lookup_alter_eq.
    destruct (sets w !! cap_listeners c) as [old |]; cbn; [| done].
    intros Heq. apply (inj Some) in Heq. subst members.
    rewrite elem_of_difference, elem_of_singleton. tauto.
  - intros options Hnone. unfold captureOpts. by rewrite Hnone.
Qed.

Lemma short_capture_is_discarded_witness :
  let w := run Scenario.capturingAlice Scenario.start in
  let c := mkCapture Scenario.guildA Scenario.alice 0 [Scenario.chunk] 0
                     (captureOpts Scenario.optionsA) in
  let w' := decoderEnd 1 200 (Scenario.answers (1 # 5)) w in
  captures w !! 1%nat = Some c /\
  (200 - cap_startTime c < minSpeechDuration (cap_opts c) \/ cap_chunks c = []) /\
  effects w' = effects w /\
  captures w' = delete 1%nat (captures w).
Proof.
  intros w c w'.
  assert (Hc : captures w !! 1%nat = Some c) by (vm_compute; reflexivity).
  assert (Hshort : 200 - cap_startTime c < minSpeechDuration (cap_opts c) \/
                   cap_chunks c = []) by (left; vm_compute; reflexivity).
  destruct (short_capture_is_discarded 1 c 200 (Scenario.answers (1 # 5)) w Hc Hshort)
    as (Heff & Hcaps & _).
  exact (conj Hc (conj Hshort (conj Heff Hcaps))).
Defined.

(** The spec's example: 200 ms against the default floor reaches neither
    the file system nor the transcription client, while 700 ms does. *)
Example capture_of_200ms_is_dropped :
  let w := run Scenario.capturingAlice Scenario.start in
  effects (run [DecoderEnd 1 200 (Scenario.answers (1 # 5))] w) = effects w /\
  length (effects (run [DecoderEnd 1 700 (Scenario.answers (1 # 5))] w)) =
    (length (effects w) + 4)%nat.
Proof. vm_compute. split; reflexivity. Qed.

(** ** Listening and connection state *)

Section ListeningState.

Lemma destroyConnection_disconnects (guildId : string) (w : World) :
  isConnected guildId (destroyConnection guildId w) = false.
Proof.
  unfold isConnected, getVoiceConnection, destroyConnection.
  destruct (destroyUntracks w); cbn.
  - by rewrite lookup_delete_eq.
  - rewrite lookup_alter_eq. destruct (connections w !! guildId); cbn; [| done].
    by rewrite bool_decide_eq_true_2.
Qed.

Lemma leave_disconnects (guildId : string) (w : World) :
  isConnected guildId (leave guildId w) = false.
Proof.
  unfold leave.
  set (w1 := match players w !! guildId with
             | Some _ => set_players (delete guildId (players w)) w
             | None => w
             end).
  destruct (getVoiceConnection guildId w1) eqn:Hc.
  - apply destroyConnection_disconnects.
  - unfold isConnected. by rewrite Hc.
Qed.

(** [leave] touches the player and the connection, nothing else. *)
Lemma leave_keeps_listener_state (guildId : string) (w : World) :
  listenerOptions (leave guildId w) = listenerOptions w /\
  activeListeners (leave guildId w) = activeListeners w /\
  sets (leave guildId w) = sets w /\
  captures (leave guildId w) = captures w.
Proof.
  unfold leave, destroyConnection.
  destruct (players w !! guildId); cbn;
    destruct (getVoiceConnection guildId _); cbn; try done;
    by destruct (destroyUntracks w).
Qed.

(** While the connection lives, [startListening] does require it. *)
Lemma startListening_requires_connection (guildId : string)
  (options : VoiceListenerOptions) (mkdirOk : bool) (w : World) :
  getVoiceConnection guildId w = None ->
  startListening guildId options mkdirOk w = (Thrown (NotConnected guildId), w).
Proof. intros Hnone. unfold startListening. by rewrite Hnone. Qed.

End ListeningState.

(** C7, at the failing input. [leave] destroys the connection but keeps the
    listener options and the guild's listener set, so a guild that was
    listening still reports listening once it is disconnected. *)
Theorem leave_keeps_listening (guildId : string) (w : World) :
  isListening guildId w = true ->
  isListening guildId (leave guildId w) = true /\
  isConnected guildId (leave guildId w) = false.
Proof.
  intros Hlistening. split; [| apply leave_disconnects].
  destruct (leave_keeps_listener_state guildId w) as (Hopts & Hactive & _).
  unfold isListening in *. by rewrite Hopts, Hactive.
Qed.

Lemma leave_keeps_listening_witness :
  let w := run Scenario.capturingAlice Scenario.start in
  isListening Scenario.guildA w = true /\
  isConnected Scenario.guildA w = true /\
  isListening Scenario.guildA (leave Scenario.guildA w) = true /\
  isConnected Scenario.guildA (leave Scenario.guildA w) = false.
Proof.
  intros w.
  assert (Hl : isListening Scenario.guildA w = true) by (vm_compute; reflexivity).
  assert (Hc : isConnected Scenario.guildA w = true) by (vm_compute; reflexivity).
  destruct (leave_keeps_listening Scenario.guildA w Hl) as [Hl' Hc'].
  exact (conj Hl (conj Hc (conj Hl' Hc'))).
Defined.

(** The same through the event interface, for a registry that forgets
    destroyed connections and for one that keeps them. *)
Example listening_without_connection :
  forall untrack : bool,
    let w := run (Scenario.capturingAlice ++ [Leave Scenario.guildA])
                 (newWorld "/tmp/clawdbot-voice" untrack ∅) in
    isListening Scenario.guildA w = true /\ isConnected Scenario.guildA w = false.
Proof. intros [|]; vm_compute; split; reflexivity. Qed.

(** ** Listener configuration *)




(** ** The module-level manager *)

Section SingletonFacts.
Import Singleton.



End SingletonFacts.



(** A second token neither builds a second manager nor logs in again. *)
Example second_token_is_ignored :
  Singleton.calls [Singleton.Init "token-1" true; Singleton.Get (Some "token-2"%string);
                   Singleton.Init "token-3" false; Singleton.Get None]
                  Singleton.initial =
  (let m := Singleton.mkInstance 0 "token-1" in
   ([Some m; Some m; Some m; Some m], Singleton.mkState (Some m) [m])).
Proof. reflexivity. Qed.

(** ** One capture per user and guild, as long as listening is not stopped *)

Section TrackingFacts.
Import Tracking.

Lemma consistent_newWorld (dir : string) (untrack : bool) (files : gset string) :
  consistent (newWorld dir untrack files).
Proof. split; cbn; intros *; by rewrite ?lookup_empty. Qed.

(** Consistency only reads four fields. *)
Lemma consistent_frame (w w' : World) :
  activeListeners w' = activeListeners w ->
  sets w' = sets w ->
  captures w' = captures w ->
  (fresh w <= fresh w')%nat ->
  consistent w -> consistent w'.
Proof.
  intros Ha Hs Hc Hf [I1 I2 I3 I4]. split; rewrite ?Ha, ?Hs, ?Hc.
  - intros g l Hl. destruct (I1 g l Hl). split; [lia | done].
  - exact I2.
  - intros id c Hid. destruct (I3 id c Hid) as (? & ? & ?). split; [lia | done].
  - exact I4.
Qed.

(** The first speaking-start of a guild allocates its set. *)
Lemma handleSpeakingStart_allocates (guildId userId : string) (opts : CaptureOpts)
  (now : Z) (w : World) :
  activeListeners w !! guildId = None ->
  let w' := handleSpeakingStart guildId userId opts now w in
  activeListeners w' = <[guildId := fresh w]> (activeListeners w) /\
  sets w' = <[fresh w := {[userId]}]> (sets w) /\
  captures w' =
    <[S (fresh w) := mkCapture guildId userId (fresh w) [] now opts]> (captures w) /\
  fresh w' = S (S (fresh w)).
Proof.
  intros Hnone. unfold handleSpeakingStart. rewrite Hnone. cbn.
  rewrite lookup_insert_eq. cbn.
  rewrite bool_decide_eq_false_2 by apply not_elem_of_empty. cbn.
  rewrite insert_insert_eq, (left_id_L ∅ (∪)). done.
Qed.

Lemma handleSpeakingStart_registers (guildId userId : string) (opts : CaptureOpts)
  (now : Z) (w : World) (l : nat) (members : gset string) :
  activeListeners w !! guildId = Some l ->
  sets w !! l = Some members ->
  userId ∉ members ->
  let w' := handleSpeakingStart guildId userId opts now w in
  activeListeners w' = activeListeners w /\
  sets w' = <[l := members ∪ {[userId]}]> (sets w) /\
  captures w' = <[fresh w := mkCapture guildId userId l [] now opts]> (captures w) /\
  fresh w' = S (fresh w).
Proof.
  intros Hl Hm Hin. unfold handleSpeakingStart. rewrite Hl, Hm. cbn.
  by rewrite bool_decide_eq_false_2.
Qed.

Lemma handleSpeakingStart_consistent (guildId userId : string) (opts : CaptureOpts)
  (now : Z) (w : World) :
  consistent w -> consistent (handleSpeakingStart guildId userId opts now w).
Proof.
  intros Hw. pose proof Hw as [I1 I2 I3 I4].
  destruct (activeListeners w !! guildId) as [l |] eqn:Hl.
  - destruct (I1 _ _ Hl) as [Hlt [members Hm]].
    destruct (decide (userId ∈ members)) as [Hin | Hin].
    { by rewrite (handleSpeakingStart_skips _ _ _ _ _ _ _ Hl Hm Hin). }
    destruct (handleSpeakingStart_registers _ _ opts now _ _ _ Hl Hm Hin)
      as (Ha & Hs & Hc & Hf).
    split; rewrite ?Ha, ?Hs, ?Hc, ?Hf.
    + intros g l' Hl'. destruct (I1 g l' Hl') as [? ?]. split; [lia |].
      destruct (decide (l = l')) as [<- | Hne];
        [by rewrite lookup_insert_eq | by rewrite lookup_insert_ne].
    + exact I2.
    + intros id c Hid. destruct (decide (fresh w = id)) as [<- | Hne].
      * rewrite lookup_insert_eq in Hid. injection Hid as <-. cbn.
        split; [lia |]. split; [done |].
        exists (members ∪ {[userId]}). rewrite lookup_insert_eq. split; [done |].
        apply elem_of_union. right. by apply elem_of_singleton.
      * rewrite lookup_insert_ne in Hid by done.
        destruct (I3 id c Hid) as (? & ? & members' & Hm' & Hin').
        split; [lia |]. split; [done |].
        destruct (decide (l = cap_listeners c)) as [Heq | Hne'].
        -- rewrite <- Heq in *. rewrite lookup_insert_eq. rewrite Hm in Hm'.
           injection Hm' as <-. exists (members ∪ {[userId]}). split; [done |].
           apply elem_of_union. by left.
        -- rewrite lookup_insert_ne by done. eauto.
    + intros id1 id2 c1 c2 H1 H2 Hg Hu.
      assert (Hclash : forall id c, captures w !! id = Some c ->
                cap_guild c = guildId -> cap_user c = userId -> False).
      { intros id c Hid Hcg Hcu. destruct (I3 id c Hid) as (_ & Hreg & members' & Hm' & Hin').
        rewrite Hcg, Hl in Hreg. injection Hreg as Heq. rewrite <- Heq, Hm in Hm'.
        injection Hm' as <-. by rewrite Hcu in Hin'. }
      destruct (decide (fresh w = id1)) as [<- | Hne1];
        destruct (decide (fresh w = id2)) as [<- | Hne2]; [done | | |].
      * rewrite lookup_insert_eq in H1. rewrite lookup_insert_ne in H2 by done.
        injection H1 as <-. cbn in Hg, Hu. exfalso. by apply (Hclash id2 c2).
      * rewrite lookup_insert_eq in H2. rewrite lookup_insert_ne in H1 by done.
        injection H2 as <-. cbn in Hg, Hu. exfalso. by apply (Hclash id1 c1).
      * rewrite lookup_insert_ne in H1, H2 by done. by apply (I4 id1 id2 c1 c2).
  - destruct (handleSpeakingStart_allocates guildId userId opts now w Hl)
      as (Ha & Hs & Hc & Hf).
    assert (Hold : forall g l', activeListeners w !! g = Some l' -> l' <> fresh w).
    { intros g l' Hl'. destruct (I1 g l' Hl'). lia. }
    split; rewrite ?Ha, ?Hs, ?Hc, ?Hf.
    + intros g l' Hl'. destruct (decide (guildId = g)) as [<- | Hne].
      * rewrite lookup_insert_eq in Hl'. injection Hl' as <-.
        rewrite lookup_insert_eq. split; [lia | done].
      * rewrite lookup_insert_ne in Hl' by done. destruct (I1 g l' Hl') as [? ?].
        split; [lia |]. rewrite lookup_insert_ne; [done |]. lia.
    + intros g1 g2 l' H1 H2.
      destruct (decide (guildId = g1)) as [<- | Hne1];
        destruct (decide (guildId = g2)) as [<- | Hne2]; [done | | |].
      * rewrite lookup_insert_eq in H1. rewrite lookup_insert_ne in H2 by done.
        injection H1 as <-. by destruct (Hold _ _ H2).
      * rewrite lookup_insert_eq in H2. rewrite lookup_insert_ne in H1 by done.
        injection H2 as <-. by destruct (Hold _ _ H1).
      * rewrite lookup_insert_ne in H1, H2 by done. by apply (I2 g1 g2 l').
    + intros id c Hid. destruct (decide (S (fresh w) = id)) as [<- | Hne].
      * rewrite lookup_insert_eq in Hid. injection Hid as <-. cbn.
        split; [lia |]. rewrite !lookup_insert_eq. split; [done |].
        exists {[userId]}. split; [done | by apply elem_of_singleton].
      * rewrite lookup_insert_ne in Hid by done.
        destruct (I3 id c Hid) as (? & Hreg & members' & Hm' & Hin').
        split; [lia |].
        assert (cap_guild c <> guildId) by (intros Heq; by rewrite Heq, Hl in Hreg).
        rewrite lookup_insert_ne by done. split; [done |].
        rewrite lookup_insert_ne; [eauto |]. intros Heq. by apply (Hold _ _ Hreg).
    + intros id1 id2 c1 c2 H1 H2 Hg Hu.
      assert (Hclash : forall id c, captures w !! id = Some c ->
                cap_guild c = guildId -> False).
      { intros id c Hid Hcg. destruct (I3 id c Hid) as (_ & Hreg & _).
        by rewrite Hcg, Hl in Hreg. }
      destruct (decide (S (fresh w) = id1)) as [<- | Hne1];
        destruct (decide (S (fresh w) = id2)) as [<- | Hne2]; [done | | |].
      * rewrite lookup_insert_eq in H1. rewrite lookup_insert_ne in H2 by done.
        injection H1 as <-. cbn in Hg. exfalso. by apply (Hclash id2 c2).
      * rewrite lookup_insert_eq in H2. rewrite lookup_insert_ne in H1 by done.
        injection H2 as <-. cbn in Hg. exfalso. by apply (Hclash id1 c1).
      * rewrite lookup_insert_ne in H1, H2 by done. by apply (I4 id1 id2 c1 c2).
Qed.

Lemma speakingStart_consistent (guildId userId : string) (now : Z) (w : World) :
  consistent w -> consistent (speakingStart guildId userId now w).
Proof.
  unfold speakingStart. destruct (getVoiceConnection guildId w) as [connection |]; [| done].
  destruct (decide (status connection = Destroyed)); [done |].
  generalize (onSpeakingStart connection). intros handlers. revert w.
  induction handlers as [| opts handlers IH]; intros w Hw; [done |].
  cbn [fold_left]. apply IH. by apply handleSpeakingStart_consistent.
Qed.

Lemma decoderData_consistent (id : nat) (chunk : Buffer) (w : World) :
  consistent w -> consistent (decoderData id chunk w).
Proof.
  intros Hw. pose proof Hw as [I1 I2 I3 I4]. unfold decoderData.
  destruct (captures w !! id) as [c |] eqn:Hc; [| done].
  split; cbn.
  - exact I1.
  - exact I2.
  - intros id' c' Hid'. destruct (decide (id = id')) as [<- | Hne].
    + rewrite lookup_insert_eq in Hid'. injection Hid' as <-. cbn. by apply (I3 id c).
    + rewrite lookup_insert_ne in Hid' by done. by apply (I3 id' c').
  - assert (Hsame : forall id' c', <[id := mkCapture (cap_guild c) (cap_user c)
                      (cap_listeners c) (cap_chunks c ++ [chunk]) (cap_startTime c)
                      (cap_opts c)]> (captures w) !! id' = Some c' ->
              exists c0, captures w !! id' = Some c0 /\
                         cap_guild c0 = cap_guild c' /\ cap_user c0 = cap_user c').
    { intros id' c' Hid'. destruct (decide (id = id')) as [<- | Hne].
      - rewrite lookup_insert_eq in Hid'. injection Hid' as <-. by exists c.
      - rewrite lookup_insert_ne in Hid' by done. by exists c'. }
    intros id1 id2 c1 c2 H1 H2 Hg Hu.
    destruct (Hsame _ _ H1) as (c1' & H1' & Hg1 & Hu1).
    destruct (Hsame _ _ H2) as (c2' & H2' & Hg2 & Hu2).
    apply (I4 id1 id2 c1' c2' H1' H2'); congruence.
Qed.

(** Releasing the user of a capture and dropping the capture, as the end
    and error handlers do. *)
Lemma release_consistent (id : nat) (c : Capture) (w : World) :
  captures w !! id = Some c ->
  consistent w ->
  consistent (set_captures (delete id (captures (releaseListener c w)))
                           (releaseListener c w)).
Proof.
  intros Hc Hw. pose proof Hw as [I1 I2 I3 I4]. split; cbn.
  - intros g l Hl. destruct (I1 g l Hl) as [? [members Hm]]. split; [done |].
    rewrite lookup_alter. case_decide; subst; rewrite Hm; eauto.
  - exact I2.
  - intros id' c' Hid'.
    destruct (decide (id = id')) as [<- | Hne]; [by rewrite lookup_delete_eq in Hid' |].
    rewrite lookup_delete_ne in Hid' by done.
    destruct (I3 id' c' Hid') as (? & Hreg' & members & Hm & Hin).
    split; [done |]. split; [done |].
    rewrite lookup_alter. case_decide as Heq; [rewrite Heq |]; rewrite Hm; cbn; [| eauto].
    exists (members ∖ {[cap_user c]}). split; [done |].
    apply elem_of_difference. split; [done |].
    rewrite elem_of_singleton. intros Hu. apply Hne.
    destruct (I3 id c Hc) as (_ & Hreg & _).
    apply (I4 id id' c c' Hc Hid'); [| done].
    apply (I2 _ _ (cap_listeners c)); [done | by rewrite Heq].
  - intros id1 id2 c1 c2 H1 H2.
    destruct (decide (id = id1)) as [<- | Hne1]; [by rewrite lookup_delete_eq in H1 |].
    destruct (decide (id = id2)) as [<- | Hne2]; [by rewrite lookup_delete_eq in H2 |].
    rewrite lookup_delete_ne in H1, H2 by done. by apply I4.
Qed.

Lemma captureError_consistent (id : nat) (w : World) :
  consistent w -> consistent (captureError id w).
Proof.
  intros Hw. unfold captureError. destruct (captures w !! id) as [c |] eqn:Hc; [| done].
  assert (Hc' : captures (emit ConsoleError w) !! id = Some c) by done.
  apply (release_consistent id c (emit ConsoleError w) Hc').
  by apply (consistent_frame w).
Qed.

Lemma join_consistent (g ch : string) (env : JoinEnv) (w : World) :
  consistent w -> consistent (join g ch env w).2.
Proof.
  intros Hw. apply (consistent_frame w); try done; unfold join, destroyConnection;
    repeat case_match; by simplify_eq/=.
Qed.

Lemma play_consistent (g f : string) (v : option Q) (w : World) :
  consistent w -> consistent (play g f v w).2.
Proof.
  intros Hw. apply (consistent_frame w); try done; unfold play;
    repeat case_match; simplify_eq/=; try done; lia.
Qed.

Lemma stop_consistent (g : string) (w : World) :
  consistent w -> consistent (stop g w).
Proof.
  intros Hw. apply (consistent_frame w); try done; unfold stop; by case_match.
Qed.

Lemma leave_consistent (g : string) (w : World) :
  consistent w -> consistent (leave g w).
Proof.
  intros Hw. destruct (leave_keeps_listener_state g w) as (_ & Ha & Hs & Hc).
  apply (consistent_frame w); try done.
  unfold leave, destroyConnection; repeat case_match; by simplify_eq/=.
Qed.

Lemma startListening_consistent (g : string) (options : VoiceListenerOptions)
  (mkdirOk : bool) (w : World) :
  consistent w -> consistent (startListening g options mkdirOk w).2.
Proof.
  intros Hw. apply (consistent_frame w); try done; unfold startListening;
    repeat case_match; by simplify_eq/=.
Qed.

End TrackingFacts.

Section TrackingRuns.
Import Tracking.
Context {number : Type} `{JsNumber number}.

(** Audio processing only adds effects. *)
Lemma transcribeWithWhisper_frame (f : TempFile) (env : Env number) (w : World) :
  let w' := (transcribeWithWhisper f env w).2 in
  activeListeners w' = activeListeners w /\ sets w' = sets w /\
  captures w' = captures w /\ fresh w' = fresh w.
Proof. unfold transcribeWithWhisper. by repeat case_match. Qed.

Lemma processAudio_frame (g u : string) (chunks : list Buffer) (env : Env number)
  (w : World) :
  let w' := (processAudio g u chunks env w).2 in
  activeListeners w' = activeListeners w /\ sets w' = sets w /\
  captures w' = captures w /\ fresh w' = fresh w.
Proof.
  unfold processAudio, transcribeAndDeliver.
  destruct (listenerOptions w); [| done].
  destruct (pcmToWav _ _ _ _); [| done].
  destruct (negb (env_writeFile env)); [done |].
  set (w1 := emit _ w).
  destruct (transcribeWithWhisper_frame
              (mkTempFile (tempDir w) g u (env_now env)) env w1) as (Ha & Hs & Hc & Hf).
  destruct (transcribeWithWhisper _ env w1) as [[transcript | e] w2]; cbn in *;
    [| done].
  by repeat case_match; simplify_eq/=.
Qed.

Lemma decoderEnd_consistent (id : nat) (now : Z) (env : Env number) (w : World) :
  consistent w -> consistent (decoderEnd id now env w).
Proof.
  intros Hw. unfold decoderEnd. destruct (captures w !! id) as [c |] eqn:Hc; [| done].
  pose proof (release_consistent id c w Hc Hw) as Hreleased.
  set (w1 := set_captures _ _) in *.
  destruct (_ || _); [done |].
  destruct (processAudio_frame (cap_guild c) (cap_user c) (cap_chunks c) env w1)
    as (Ha & Hs & Hcap & Hf).
  destruct (processAudio _ _ _ env w1) as [[[] | e] w2]; cbn [snd] in Ha, Hs, Hcap, Hf.
  - apply (consistent_frame w1 w2 Ha Hs Hcap); [lia | done].
  - apply (consistent_frame w1 (emit ConsoleError w2) Ha Hs Hcap); [| done].
    change (fresh (emit ConsoleError w2)) with (fresh w2). lia.
Qed.

Lemma step_consistent (e : Event number) (w : World) :
  isStopListening e = false -> consistent w -> consistent (step w e).
Proof.
  intros He Hw. destruct e; cbn [step]; try discriminate.
  - by apply join_consistent.
  - by apply play_consistent.
  - by apply stop_consistent.
  - by apply leave_consistent.
  - by apply startListening_consistent.
  - by apply speakingStart_consistent.
  - by apply decoderData_consistent.
  - by apply decoderEnd_consistent.
  - by apply captureError_consistent.
  - by apply captureError_consistent.
Qed.

(** In every run in which listening is never stopped, no two running
    captures are of the same user in the same guild. *)
Lemma run_without_stopListening_consistent
  (events : list (Event number)) (dir : string) (untrack : bool) (files : gset string) :
  forallb (fun e => negb (isStopListening e)) events = true ->
  consistent (run events (newWorld dir untrack files)).
Proof.
  intros Hev. unfold run.
  generalize (consistent_newWorld dir untrack files).
  generalize (newWorld dir untrack files). intros w.
  revert w. induction events as [| e events IH]; intros w Hw; [done |].
  cbn in Hev. apply andb_true_iff in Hev as [He Hev]. apply negb_true_iff in He.
  cbn [fold_left]. apply (IH Hev). by apply step_consistent.
Qed.

Corollary one_capture_per_user
  (events : list (Event number)) (dir : string) (untrack : bool) (files : gset string)
  (id1 id2 : nat) (c1 c2 : Capture) :
  forallb (fun e => negb (isStopListening e)) events = true ->
  let w := run events (newWorld dir untrack files) in
  captures w !! id1 = Some c1 -> captures w !! id2 = Some c2 ->
  cap_guild c1 = cap_guild c2 -> cap_user c1 = cap_user c2 ->
  id1 = id2.
Proof.
  intros Hev w. apply captures_exclusive.
  by apply run_without_stopListening_consistent.
Qed.

End TrackingRuns.

(** ** Sessions *)

(** Join, status, leave, status. *)
Example join_status_leave :
  let joined := run [Join Scenario.guildA Scenario.chanX (Reachable true) : Event Q]
                    Scenario.start in
  let left := run [Leave Scenario.guildA : Event Q] joined in
  isConnected Scenario.guildA joined = true /\
  getChannelId Scenario.guildA joined = Some Scenario.chanX /\
  isListening Scenario.guildA joined = false /\
  isConnected Scenario.guildA left = false /\
  getChannelId Scenario.guildA left = None.
Proof. vm_compute. repeat split; reflexivity. Qed.

(** [destroyVoiceManager] ends the life of the instance: the next call with
    a token builds another one. *)
Example destroy_then_get_builds_again :
  let '(_, st) := Singleton.initVoiceManager "token-1" true Singleton.initial in
  Singleton.getVoiceManager (Some "token-2"%string) (Singleton.destroyVoiceManager st) =
  (let m1 := Singleton.mkInstance 0 "token-1" in
   let m2 := Singleton.mkInstance 1 "token-2" in
   (Some m2, Singleton.mkState (Some m2) [m1; m2])).
Proof. reflexivity. Qed.

(** * Further properties of the code *)

(** ** Connection manager *)

(** X1. Whenever [join] returns for a reachable voice channel, the guild is
    connected and [getChannelId] answers the channel that was asked for,
    whether the connection is new or an existing one was moved. *)
Theorem join_connects (guildId channel : string) (ready : bool) (w : World) :
  (join guildId channel (Reachable ready) w).1 = Returned tt ->
  isConnected guildId (join guildId channel (Reachable ready) w).2 = true /\
  getChannelId guildId (join guildId channel (Reachable ready) w).2 = Some channel.
Proof.
  unfold join, isConnected, getChannelId, getVoiceConnection, destroyConnection.
  destruct (connections w !! guildId) as [c |] eqn:Hc.
  - destruct (decide (status c = Destroyed)) as [Hd | Hd].
    + destruct ready; cbn; [| discriminate].
      intros _. rewrite lookup_insert_eq. cbn. done.
    + cbn. intros _. rewrite lookup_insert_eq. cbn.
      rewrite bool_decide_eq_false_2 by done. by rewrite decide_False.
  - destruct ready; cbn; [| discriminate].
    intros _. rewrite lookup_insert_eq. cbn. done.
Qed.

Lemma join_connects_witness :
  (join Scenario.guildA Scenario.chanX (Reachable true) Session.start).1 = Returned tt /\
  isConnected Scenario.guildA Session.joined = true /\
  getChannelId Scenario.guildA Session.joined = Some Scenario.chanX.
Proof.
  assert (H : (join Scenario.guildA Scenario.chanX (Reachable true) Session.start).1 =
              Returned tt) by (vm_compute; reflexivity).
  exact (conj H (join_connects Scenario.guildA Scenario.chanX true Session.start H)).
Defined.

(** X2. A guild that has a live connection is moved, not reconnected:
    [join] returns without waiting for readiness, and the connection keeps
    its state, the player subscribed to it and the speaking handlers
    registered on it; only its channel changes, and nothing else in the
    manager does. *)
Theorem rejoin_keeps_connection (guildId channel : string) (ready : bool)
  (w : World) (c : VoiceConnection) :
  getVoiceConnection guildId w = Some c ->
  status c <> Destroyed ->
  join guildId channel (Reachable ready) w =
  (Returned tt,
   set_connections
     (<[guildId := mkConnection channel (status c) (subscription c) (onSpeakingStart c)]>
        (connections w)) w).
Proof.
  intros Hc Hlive. unfold join. rewrite Hc. by rewrite decide_False.
Qed.

Lemma rejoin_keeps_connection_witness :
  let w := run Scenario.capturingAlice Scenario.start in
  let c := mkConnection Scenario.chanX Ready None [captureOpts Scenario.optionsA] in
  getVoiceConnection Scenario.guildA w = Some c /\
  status c <> Destroyed /\
  getVoiceConnection Scenario.guildA
    (join Scenario.guildA Scenario.chanY (Reachable false) w).2 =
    Some (mkConnection Scenario.chanY Ready None [captureOpts Scenario.optionsA]).
Proof.
  intros w c.
  assert (Hc : getVoiceConnection Scenario.guildA w = Some c) by (vm_compute; reflexivity).
  assert (Hlive : status c <> Destroyed) by discriminate.
  split; [exact Hc |]. split; [exact Hlive |].
  rewrite (rejoin_keeps_connection Scenario.guildA Scenario.chanY false w c Hc Hlive).
  unfold getVoiceConnection. cbn. apply lookup_insert_eq.
Defined.

(** X3. A [join] that throws leaves the players and every other guild's
    connection as they were. When the guild or the channel could not be
    looked up the whole state is unchanged; when the new connection did not
    become ready it has been destroyed and the guild is not connected. *)
Theorem join_failure_frame (guildId channel : string) (env : JoinEnv)
  (w : World) (e : Error) :
  (join guildId channel env w).1 = Thrown e ->
  let w' := (join guildId channel env w).2 in
  players w' = players w /\
  (forall g : string, g <> guildId ->
     getVoiceConnection g w' = getVoiceConnection g w) /\
  (e <> JoinFailed -> w' = w) /\
  (e = JoinFailed -> isConnected guildId w' = false).
Proof.
  assert (Hsame : forall e0 : Error, e0 <> JoinFailed -> Thrown (A := unit) e0 = Thrown e ->
            players w = players w /\
            (forall g : string, g <> guildId ->
               getVoiceConnection g w = getVoiceConnection g w) /\
            (e <> JoinFailed -> w = w) /\
            (e = JoinFailed -> isConnected guildId w = false)).
  { intros e0 He0 [= <-]. by repeat split. }
  assert (Hfresh : forall ready : bool,
    let r :=
      (if ready
       then (Returned tt,
             set_connections (<[guildId := mkConnection channel Ready None []]>
                                (connections w)) w)
       else (Thrown JoinFailed,
             destroyConnection guildId
               (set_connections (<[guildId := mkConnection channel Ready None []]>
                                   (connections w)) w))) in
    r.1 = Thrown e ->
    players r.2 = players w /\
    (forall g : string, g <> guildId ->
       getVoiceConnection g r.2 = getVoiceConnection g w) /\
    (e <> JoinFailed -> r.2 = w) /\
    (e = JoinFailed -> isConnected guildId r.2 = false)).
  { intros [|]; cbn; [discriminate |]. intros [= <-].
    split; [unfold destroyConnection; cbn; by destruct (destroyUntracks w) |].
    split; [| split; [done | intros _; apply destroyConnection_disconnects]].
    intros g Hg. unfold getVoiceConnection, destroyConnection. cbn.
    destruct (destroyUntracks w); cbn.
    - rewrite lookup_delete_ne, lookup_insert_ne by done. done.
    - rewrite lookup_alter_ne, lookup_insert_ne by done. done. }
  unfold join. destruct env as [| | | | ready]; cbn [fst snd].
  - by apply Hsame.
  - by apply Hsame.
  - by apply Hsame.
  - by apply Hsame.
  - destruct (getVoiceConnection guildId w) as [c |]; [| apply Hfresh].
    destruct (decide (status c = Destroyed)); [apply Hfresh |].
    cbn. discriminate.
Qed.

Lemma join_failure_frame_witness :
  let w := Session.played in
  let r := join Scenario.guildB Scenario.chanY (Reachable false) w in
  r.1 = Thrown JoinFailed /\
  players r.2 = players w /\
  getVoiceConnection Scenario.guildA r.2 = getVoiceConnection Scenario.guildA w /\
  isConnected Scenario.guildB r.2 = false.
Proof.
  intros w r.
  assert (H : r.1 = Thrown JoinFailed) by (vm_compute; reflexivity).
  destruct (join_failure_frame Scenario.guildB Scenario.chanY (Reachable false) w
              JoinFailed H) as (Hp & Hother & _ & Hdown).
  split; [exact H |]. split; [exact Hp |].
  split; [apply Hother; discriminate | by apply Hdown].
Defined.

(** ** Playback controller *)




(** X5. [leave] forgets the guild's player and leaves the guild
    disconnected; the players and connections of every other guild are as
    before; and on a guild that has neither a player nor a connection it
    changes nothing at all. *)
Theorem leave_frees_only_its_guild (guildId : string) (w : World) :
  players (leave guildId w) !! guildId = None /\
  isConnected guildId (leave guildId w) = false /\
  (forall g : string, g <> guildId ->
     players (leave guildId w) !! g = players w !! g /\
     getVoiceConnection g (leave guildId w) = getVoiceConnection g w) /\
  (players w !! guildId = None -> getVoiceConnection guildId w = None ->
   leave guildId w = w).
Proof.
  split; [| split; [apply leave_disconnects | split]].
  - unfold leave, destroyConnection, getVoiceConnection.
    destruct (players w !! guildId) eqn:Hp; cbn;
      destruct (connections w !! guildId); cbn;
      try destruct (destroyUntracks w); cbn;
      by rewrite ?lookup_delete_eq.
  - intros g Hg. unfold leave, destroyConnection, getVoiceConnection.
    destruct (players w !! guildId) eqn:Hp; cbn;
      destruct (connections w !! guildId); cbn;
      try destruct (destroyUntracks w); cbn;
      by rewrite ?lookup_delete_ne, ?lookup_alter_ne by done.
  - intros Hp Hc. unfold leave. rewrite Hp. by rewrite Hc.
Qed.



(** ** Listening *)

Section ListeningFacts.

Lemma handleSpeakingStart_keeps_options (g u : string) (opts : CaptureOpts)
  (now : Z) (w : World) :
  listenerOptions (handleSpeakingStart g u opts now w) = listenerOptions w /\
  connections (handleSpeakingStart g u opts now w) = connections w /\
  players (handleSpeakingStart g u opts now w) = players w.
Proof. unfold handleSpeakingStart. repeat case_match; by simplify_eq/=. Qed.




End ListeningFacts.

(** X7. When the temporary directory cannot be created [startListening]
    throws, after it has already replaced the manager's listener options and
    before it registers a handler: the options are the new ones, the
    connection has no new handler, and no capture state has changed. *)
Theorem startListening_mkdir_failure (guildId : string)
  (options : VoiceListenerOptions) (w : World) (c : VoiceConnection) :
  getVoiceConnection guildId w = Some c ->
  let r := startListening guildId options false w in
  r.1 = Thrown MkdirFailed /\
  listenerOptions r.2 = Some options /\
  connections r.2 = connections w /\
  activeListeners r.2 = activeListeners w /\
  captures r.2 = captures w /\
  effects r.2 = effects w ++ [Mkdir (tempDir w)].
Proof. intros Hc r. subst r. unfold startListening. by rewrite Hc. Qed.

Lemma startListening_mkdir_failure_witness :
  let w := run Scenario.capturingAlice Scenario.start in
  let c := mkConnection Scenario.chanX Ready None [captureOpts Scenario.optionsA] in
  let r := startListening Scenario.guildA Scenario.optionsB false w in
  getVoiceConnection Scenario.guildA w = Some c /\
  r.1 = Thrown MkdirFailed /\
  listenerOptions w = Some Scenario.optionsA /\
  listenerOptions r.2 = Some Scenario.optionsB /\
  connections r.2 = connections w.
Proof.
  intros w c r.
  assert (Hc : getVoiceConnection Scenario.guildA w = Some c) by (vm_compute; reflexivity).
  destruct (startListening_mkdir_failure Scenario.guildA Scenario.optionsB w c Hc)
    as (Hthrown & Hopts & Hconn & _).
  split; [exact Hc |]. split; [exact Hthrown |].
  split; [vm_compute; reflexivity |]. split; [exact Hopts | exact Hconn].
Defined.

(** X8. Calling [startListening] a second time on a guild registers a
    second handler next to the first. At the next speaking-start the first
    handler starts the capture and the second is skipped, so the capture
    runs with the thresholds of the first call, there is one subscription,
    and the manager's options are those of the second call. *)
Theorem relistening_keeps_first_thresholds (guildId userId : string)
  (first second : VoiceListenerOptions) (now : Z) (w : World) (c : VoiceConnection) :
  getVoiceConnection guildId w = Some c ->
  status c <> Destroyed ->
  onSpeakingStart c = [] ->
  activeListeners w !! guildId = None ->
  let w1 := (startListening guildId first true w).2 in
  let w2 := (startListening guildId second true w1).2 in
  let w3 := speakingStart guildId userId now w2 in
  (onSpeakingStart <$> getVoiceConnection guildId w2) =
    Some [captureOpts first; captureOpts second] /\
  captures w3 =
    <[S (fresh w) := mkCapture guildId userId (fresh w) [] now (captureOpts first)]>
      (captures w) /\
  effects w3 =
    effects w ++ [Mkdir (tempDir w); Mkdir (tempDir w);
                  Subscribe guildId userId (silenceThreshold (captureOpts first))] /\
  listenerOptions w3 = Some second.
Proof.
  intros Hc Hlive Hnone Hactive w1 w2 w3.
  assert (Hw2 : w2 =
    set_connections
      (<[guildId := mkConnection (channelId c) (status c) (subscription c)
                                 [captureOpts first; captureOpts second]]>
         (<[guildId := mkConnection (channelId c) (status c) (subscription c)
                                    [captureOpts first]]> (connections w)))
      (emit (Mkdir (tempDir w))
         (set_listenerOptions (Some second)
            (set_connections
               (<[guildId := mkConnection (channelId c) (status c) (subscription c)
                                          [captureOpts first]]> (connections w))
               (emit (Mkdir (tempDir w)) (set_listenerOptions (Some first) w)))))).
  { subst w2 w1. unfold startListening at 2. rewrite Hc, Hnone. cbn.
    unfold startListening, getVoiceConnection. cbn. by rewrite lookup_insert_eq. }
  split.
  { rewrite Hw2. unfold getVoiceConnection. cbn. by rewrite lookup_insert_eq. }
  assert (Hw3 : w3 =
    handleSpeakingStart guildId userId (captureOpts second) now
      (handleSpeakingStart guildId userId (captureOpts first) now w2)).
  { subst w3. unfold speakingStart, getVoiceConnection. rewrite Hw2 at 1. cbn.
    rewrite lookup_insert_eq. cbn. by rewrite decide_False. }
  assert (Hactive2 : activeListeners w2 !! guildId = None) by (by rewrite Hw2).
  destruct (handleSpeakingStart_allocates guildId userId (captureOpts first) now w2 Hactive2)
    as (Ha & Hs & Hcap & Hf).
  destruct (handleSpeakingStart_keeps_options guildId userId (captureOpts first) now w2)
    as (Hopts & _).
  assert (Heff : effects (handleSpeakingStart guildId userId (captureOpts first) now w2) =
                 effects w2 ++ [Subscribe guildId userId
                                          (silenceThreshold (captureOpts first))]).
  { unfold handleSpeakingStart. rewrite Hactive2. cbn. rewrite lookup_insert_eq. cbn.
    by rewrite bool_decide_eq_false_2 by apply not_elem_of_empty. }
  rewrite Hw3.
  rewrite (handleSpeakingStart_skips guildId userId (captureOpts second) now _
             (fresh w2) {[userId]}).
  - rewrite Hcap, Heff, Hopts. rewrite Hw2. cbn. rewrite <- !app_assoc. done.
  - rewrite Ha. apply lookup_insert_eq.
  - rewrite Hs. apply lookup_insert_eq.
  - by apply elem_of_singleton.
Qed.

Lemma relistening_keeps_first_thresholds_witness :
  let c := mkConnection Scenario.chanX Ready None [] in
  let w1 := (startListening Scenario.guildA Scenario.optionsA true Session.joined).2 in
  let w2 := (startListening Scenario.guildA Scenario.optionsB true w1).2 in
  let w3 := speakingStart Scenario.guildA Scenario.alice 0 w2 in
  getVoiceConnection Scenario.guildA Session.joined = Some c /\
  status c <> Destroyed /\
  onSpeakingStart c = [] /\
  activeListeners Session.joined !! Scenario.guildA = None /\
  captures w3 =
    <[1%nat := mkCapture Scenario.guildA Scenario.alice 0 [] 0 (mkCaptureOpts 1500 500)]>
      (captures Session.joined) /\
  listenerOptions w3 = Some Scenario.optionsB.
Proof.
  intros c w1 w2 w3.
  assert (Hc : getVoiceConnection Scenario.guildA Session.joined = Some c)
    by (vm_compute; reflexivity).
  assert (Hlive : status c <> Destroyed) by discriminate.
  assert (Ha : activeListeners Session.joined !! Scenario.guildA = None)
    by (vm_compute; reflexivity).
  destruct (relistening_keeps_first_thresholds Scenario.guildA Scenario.alice
              Scenario.optionsA Scenario.optionsB 0 Session.joined c Hc Hlive eq_refl Ha)
    as (_ & Hcap & _ & Hopts).
  exact (conj Hc (conj Hlive (conj eq_refl (conj Ha (conj Hcap Hopts))))).
Defined.

Section ProcessingFrame.
Import Frame.
Context {number : Type} `{JsNumber number}.

Lemma sameButEffects_refl (w : World) : sameButEffects w w.
Proof. by repeat split. Qed.

Lemma sameButEffects_emit (e : Effect) (w w' : World) :
  sameButEffects w w' -> sameButEffects w (emit e w').
Proof. intros Hs. exact Hs. Qed.

Lemma transcribeWithWhisper_sameButEffects (f : TempFile) (env : Env number) (w : World) :
  sameButEffects w (transcribeWithWhisper f env w).2.
Proof. unfold transcribeWithWhisper. repeat case_match; by repeat split. Qed.

(** Whatever the outside answers, [processAudio] changes nothing of the
    manager and the library: it only logs effects. *)
Lemma processAudio_sameButEffects (g u : string) (chunks : list Buffer)
  (env : Env number) (w : World) :
  sameButEffects w (processAudio g u chunks env w).2.
Proof.
  unfold processAudio, transcribeAndDeliver.
  destruct (listenerOptions w); [| apply sameButEffects_refl].
  destruct (pcmToWav _ _ _ _); [| apply sameButEffects_refl].
  destruct (negb (env_writeFile env)); [apply sameButEffects_refl |].
  set (w1 := emit _ w).
  pose proof (transcribeWithWhisper_sameButEffects
                (mkTempFile (tempDir w) g u (env_now env)) env w1) as Hs.
  destruct (transcribeWithWhisper _ env w1) as [[transcript | e] w2]; cbn in Hs |- *;
    [| exact Hs].
  repeat case_match; simplify_eq/=; exact Hs.
Qed.

Lemma processAudio_appends (g u : string) (chunks : list Buffer)
  (env : Env number) (w : World) :
  exists logged : list Effect,
    effects (processAudio g u chunks env w).2 = effects w ++ logged.
Proof.
  unfold processAudio.
  destruct (listenerOptions w) as [options |]; [| exists []; by rewrite app_nil_r].
  destruct (pcmToWav _ _ _ _); [| exists []; by rewrite app_nil_r].
  destruct (negb (env_writeFile env)); [exists []; by rewrite app_nil_r |].
  set (w1 := emit _ w).
  destruct (transcribeAndDeliver_effects options g u (default u (env_displayName env))
              match getVoiceConnection g w with
              | Some connection => channelId connection
              | None => EmptyString
              end (mkTempFile (tempDir w) g u (env_now env)) env w1)
    as (during & Heff & _).
  destruct (transcribeAndDeliver _ _ _ _ _ _ _ _) as [outcome w2].
  cbn in Heff |- *. rewrite Heff. subst w1. cbn.
  eexists. rewrite <- !app_assoc. reflexivity.
Qed.

Lemma decoderEnd_keeps_listening (id : nat) (now : Z) (env : Env number) (w : World) :
  listenerOptions (decoderEnd id now env w) = listenerOptions w /\
  activeListeners (decoderEnd id now env w) = activeListeners w /\
  connections (decoderEnd id now env w) = connections w /\
  players (decoderEnd id now env w) = players w.
Proof.
  unfold decoderEnd. destruct (captures w !! id) as [c |]; [| done].
  set (w1 := set_captures _ _).
  destruct (_ || _); [done |].
  destruct (processAudio_sameButEffects (cap_guild c) (cap_user c) (cap_chunks c) env w1)
    as (Hp & _ & Ho & Ha & _ & _ & _ & Hc & _).
  destruct (processAudio _ _ _ env w1) as [[[] | e] w2]; cbn [snd] in *;
    by rewrite ?Hp, ?Ho, ?Ha, ?Hc.
Qed.

End ProcessingFrame.




(** ** Audio processing *)

(** X11. Whatever the transcription does, the end of a capture touches only
    that capture: it is removed, its user leaves the listener set the
    capture had registered them in, and effects are logged; every other
    capture, the guild listing, the connections, the players and the
    listener options are unchanged. A failed transcription is logged and
    goes no further. *)
Theorem decoderEnd_is_isolated {number : Type} `{JsNumber number}
  (id : nat) (c : Capture) (now : Z) (env : Env number) (w : World) :
  captures w !! id = Some c ->
  let w' := decoderEnd id now env w in
  captures w' = delete id (captures w) /\
  sets w' = alter (fun members => members ∖ {[cap_user c]}) (cap_listeners c) (sets w) /\
  activeListeners w' = activeListeners w /\
  connections w' = connections w /\
  players w' = players w /\
  listenerOptions w' = listenerOptions w /\
  exists logged : list Effect, effects w' = effects w ++ logged.
Proof.
  intros Hc w'. subst w'. unfold decoderEnd. rewrite Hc.
  set (w1 := set_captures _ _).
  destruct (_ || _).
  { repeat split; try done. exists []. by rewrite app_nil_r. }
  destruct (processAudio_sameButEffects (cap_guild c) (cap_user c)
              (cap_chunks c) env w1)
    as (Hp & _ & Ho & Ha & Hs & Hcap & _ & Hconn & _).
  destruct (processAudio_appends (cap_guild c) (cap_user c) (cap_chunks c) env w1)
    as (logged & Heff).
  destruct (processAudio _ _ _ env w1) as [[[] | e] w2]; cbn [snd] in *.
  - rewrite Hp, Ho, Ha, Hs, Hcap, Hconn. repeat split; try done. by exists logged.
  - cbn. rewrite Hp, Ho, Ha, Hs, Hcap, Hconn. repeat split; try done.
    exists (logged ++ [ConsoleError]). rewrite Heff. by rewrite <- app_assoc.
Qed.

Lemma decoderEnd_is_isolated_witness :
  let w := run Scenario.capturingAlice Scenario.start in
  let c := mkCapture Scenario.guildA Scenario.alice 0 [Scenario.chunk] 0
                     (captureOpts Scenario.optionsA) in
  let refused : Env Q :=
    mkEnv None 1700000000000 true None (HttpError 500 "oops") true true in
  let w' := decoderEnd 1 700 refused w in
  captures w !! 1%nat = Some c /\
  captures w' = delete 1%nat (captures w) /\
  connections w' = connections w /\
  listenerOptions w' = listenerOptions w /\
  List.filter (fun e => match e with ConsoleError => true | _ => false end)
              (effects w') = [ConsoleError].
Proof.
  intros w c refused w'.
  assert (Hc : captures w !! 1%nat = Some c) by (vm_compute; reflexivity).
  destruct (decoderEnd_is_isolated 1 c 700 refused w Hc)
    as (Hcap & _ & _ & Hconn & _ & Hopts & _).
  split; [exact Hc |]. split; [exact Hcap |]. split; [exact Hconn |].
  split; [exact Hopts | vm_compute; reflexivity].
Defined.

Section Utterance.
Context {number : Type} `{JsNumber number}.

Lemma decoderData_appends (id : nat) (c : Capture) (chunks : list Buffer) (w : World) :
  captures w !! id = Some c ->
  let w1 := fold_left (fun w chunk => decoderData id chunk w) chunks w in
  captures w1 !! id =
    Some (mkCapture (cap_guild c) (cap_user c) (cap_listeners c)
                    (cap_chunks c ++ chunks) (cap_startTime c) (cap_opts c)) /\
  listenerOptions w1 = listenerOptions w /\
  tempDir w1 = tempDir w /\
  effects w1 = effects w.
Proof.
  revert c w. induction chunks as [| chunk chunks IH]; intros c w Hc; cbn [fold_left].
  - rewrite app_nil_r. by destruct c.
  - set (c' := mkCapture (cap_guild c) (cap_user c) (cap_listeners c)
                         (cap_chunks c ++ [chunk]) (cap_startTime c) (cap_opts c)).
    assert (Hstep : decoderData id chunk w = set_captures (<[id := c']> (captures w)) w).
    { unfold decoderData. by rewrite Hc. }
    rewrite Hstep.
    destruct (IH c' (set_captures (<[id := c']> (captures w)) w)) as (Hcap & Ho & Ht & He).
    { cbn. apply lookup_insert_eq. }
    rewrite Hcap, Ho, Ht, He. subst c'. cbn. by rewrite <- app_assoc.
Qed.

Lemma processAudio_writes_first (g u : string) (chunks : list Buffer)
  (env : Env number) (w : World) (options : VoiceListenerOptions) (wav : Buffer) :
  listenerOptions w = Some options ->
  pcmToWav (concat chunks) 48000 2 16 = Ok wav ->
  env_writeFile env = true ->
  exists rest : list Effect,
    effects (processAudio g u chunks env w).2 =
      effects w ++ WriteFile (mkTempFile (tempDir w) g u (env_now env)) wav :: rest.
Proof.
  intros Hopts Hwav Hwrite. unfold processAudio. rewrite Hopts, Hwav, Hwrite. cbn [negb].
  set (w1 := emit _ w).
  destruct (transcribeAndDeliver_effects options g u (default u (env_displayName env))
              match getVoiceConnection g w with
              | Some connection => channelId connection
              | None => EmptyString
              end (mkTempFile (tempDir w) g u (env_now env)) env w1)
    as (during & Heff & _).
  destruct (transcribeAndDeliver _ _ _ _ _ _ _ _) as [outcome w2].
  cbn in Heff |- *. rewrite Heff. subst w1. cbn.
  eexists. rewrite <- !app_assoc. reflexivity.
Qed.

End Utterance.

(** X12. The chunks that the decoder delivers to a capture are kept in
    arrival order, and when the capture ends after the minimum duration the
    first thing the manager does is write one file, named after the guild,
    the user and the time, that holds the canonical 48 kHz stereo 16-bit
    header for their total size followed by the chunks concatenated. *)
Theorem utterance_file_holds_chunks_in_order {number : Type} `{JsNumber number}
  (id : nat) (c : Capture) (chunks : list Buffer) (now : Z) (env : Env number)
  (w : World) (options : VoiceListenerOptions) :
  captures w !! id = Some c ->
  cap_chunks c = [] ->
  chunks <> [] ->
  listenerOptions w = Some options ->
  env_writeFile env = true ->
  minSpeechDuration (cap_opts c) <= now - cap_startTime c ->
  Z.of_nat (length (concat chunks)) + 36 <= 0xFFFFFFFF ->
  let w1 := fold_left (fun w chunk => decoderData id chunk w) chunks w in
  exists rest : list Effect,
    effects (decoderEnd id now env w1) =
      effects w ++
      WriteFile (mkTempFile (tempDir w) (cap_guild c) (cap_user c) (env_now env))
                (canonicalHeader (Z.of_nat (length (concat chunks))) 48000 2 16 ++
                 concat chunks) :: rest.
Proof.
  intros Hc Hempty Hne Hopts Hwrite Hlong Hsize w1.
  destruct (decoderData_appends id c chunks w Hc) as (Hcap & Ho & Ht & He).
  fold w1 in Hcap, Ho, Ht, He. clearbody w1. rewrite Hempty in Hcap. cbn in Hcap.
  unfold decoderEnd. rewrite Hcap. cbn [cap_guild cap_user cap_chunks cap_startTime
                                         cap_opts cap_listeners].
  rewrite (proj2 (Z.ltb_ge _ _) Hlong).
  assert (Hlen : (Z.of_nat (length chunks) =? 0) = false).
  { apply Z.eqb_neq. destruct chunks; [done | cbn; lia]. }
  rewrite Hlen. cbn [orb].
  set (w2 := set_captures _ _).
  assert (Hwav : pcmToWav (concat chunks) 48000 2 16 =
                 Ok (canonicalHeader (Z.of_nat (length (concat chunks))) 48000 2 16 ++
                     concat chunks)).
  { apply pcmToWav_fits. unfold fitsHeader. lia. }
  assert (Ho2 : listenerOptions w2 = Some options) by (subst w2; cbn; congruence).
  assert (Ht2 : tempDir w2 = tempDir w) by (subst w2; cbn; congruence).
  assert (He2 : effects w2 = effects w) by (subst w2; cbn; congruence).
  destruct (processAudio_writes_first (cap_guild c) (cap_user c) chunks env w2
              options _ Ho2 Hwav Hwrite) as (rest & Heff).
  rewrite Ht2, He2 in Heff. clearbody w2.
  destruct (processAudio _ _ _ env w2) as [[[] | e] w3]; cbn [snd] in Heff.
  - by exists rest.
  - exists (rest ++ [ConsoleError]). cbn. rewrite Heff. by rewrite <- app_assoc.
Qed.

Lemma utterance_file_holds_chunks_in_order_witness :
  let w := run [ Join Scenario.guildA Scenario.chanX (Reachable true);
                 StartListening Scenario.guildA Scenario.optionsA true;
                 SpeakingStart Scenario.guildA Scenario.alice 0 ] Scenario.start in
  let c := mkCapture Scenario.guildA Scenario.alice 0 [] 0 (mkCaptureOpts 1500 500) in
  let chunks : list Buffer := [[1; 0]; [2; 0; 3; 0]] in
  let env := Scenario.answers (1 # 5) in
  let w1 := fold_left (fun w chunk => decoderData 1 chunk w) chunks w in
  captures w !! 1%nat = Some c /\
  listenerOptions w = Some Scenario.optionsA /\
  (exists rest : list Effect,
     effects (decoderEnd 1 700 env w1) =
       effects w ++
       WriteFile (mkTempFile "/tmp/clawdbot-voice" Scenario.guildA Scenario.alice
                             1700000000000)
                 (canonicalHeader 6 48000 2 16 ++ [1; 0; 2; 0; 3; 0]) :: rest).
Proof.
  intros w c chunks env w1.
  assert (Hc : captures w !! 1%nat = Some c) by (vm_compute; reflexivity).
  assert (Ho : listenerOptions w = Some Scenario.optionsA) by (vm_compute; reflexivity).
  assert (Hne : chunks <> []) by discriminate.
  assert (Hlong : minSpeechDuration (cap_opts c) <= 700 - cap_startTime c)
    by (vm_compute; discriminate).
  assert (Hsize : Z.of_nat (length (concat chunks)) + 36 <= 0xFFFFFFFF)
    by (vm_compute; discriminate).
  split; [exact Hc |]. split; [exact Ho |].
  exact (utterance_file_holds_chunks_in_order 1 c chunks 700 env w Scenario.optionsA
           Hc eq_refl Hne Ho eq_refl Hlong Hsize).
Defined.

(** ** Transcription client *)

Lemma filter_effects_base (p : Effect -> bool) (e : Effect) (w : World) :
  List.filter p (effects (emit e w)) =
  List.filter p (effects w) ++ (if p e then [e] else []).
Proof. cbn. rewrite List.filter_app. cbn. by destruct (p e). Qed.

(** X13. The API key is the one of the listener options when they carry
    one, even an empty one, and the environment's otherwise. Without a
    non-empty key [transcribeWithWhisper] throws before anything is sent; in
    particular an empty key in the options hides a key of the environment.
    With a key, and the file readable, the first thing sent is a request
    with that key and with the options' language when it is not empty. *)
Theorem whisper_credentials {number : Type} `{JsNumber number}
  (f : TempFile) (env : Env number) (w : World) :
  (forall options : VoiceListenerOptions,
     listenerOptions w = Some options ->
     openaiApiKey options = Some EmptyString ->
     transcribeWithWhisper f env w = (Thrown ApiKeyMissing, w)) /\
  (listenerOptions w ≫= openaiApiKey = None ->
   truthy (env_apiKey env) = false ->
   transcribeWithWhisper f env w = (Thrown ApiKeyMissing, w)) /\
  (forall key : string,
     apiKeyOf env w = Some key -> key <> EmptyString ->
     env_whisper env <> ReadFileFails ->
     exists rest : list Effect,
       effects (transcribeWithWhisper f env w).2 =
         effects w ++
         WhisperRequest f key
           (match listenerOptions w ≫= language with
            | Some lang => if String.eqb lang EmptyString then None else Some lang
            | None => None
            end) :: rest).
Proof.
  split; [| split].
  - intros options Hopts Hkey. unfold transcribeWithWhisper, apiKeyOf.
    rewrite Hopts. cbn. by rewrite Hkey.
  - intros Hnone Henv. unfold transcribeWithWhisper, apiKeyOf.
    rewrite Hnone. by rewrite Henv.
  - intros key Hkey Hne Hread. unfold transcribeWithWhisper, requestFor.
    rewrite Hkey. cbn [truthy default].
    rewrite (proj2 (String.eqb_neq key EmptyString) Hne). cbn [negb].
    assert (Hlang : (if truthy (listenerOptions w ≫= language)
                     then listenerOptions w ≫= language else None) =
                    match listenerOptions w ≫= language with
                    | Some lang => if String.eqb lang EmptyString then None else Some lang
                    | None => None
                    end).
    { destruct (listenerOptions w ≫= language) as [lang |]; [| done].
      cbn. by destruct (String.eqb lang EmptyString). }
    rewrite Hlang.
    destruct (env_whisper env) as [| | status body | result]; [done | | |].
    + by exists [].
    + by exists [].
    + destruct (lowConfidence result); [| by exists []].
      exists [ConsoleLog]. cbn. by rewrite <- app_assoc.
Qed.

(** An empty key in the options against a key in the environment. *)
Example empty_option_key_hides_environment_key :
  let options := mkOptions 1 None None (Some EmptyString) None in
  let w := set_listenerOptions (Some options) Scenario.start in
  let env : Env Q :=
    mkEnv None 0 true (Some "sk-env"%string) (Response (Scenario.response (1 # 5)))
          true true in
  transcribeWithWhisper (mkTempFile "/tmp" "g" "u" 0) env w = (Thrown ApiKeyMissing, w).
Proof. reflexivity. Qed.

(** X14. [processAudio] invokes the transcription callback at most once, and
    only for a response that passed the confidence filter and whose trimmed
    text is not empty and not noise; then it passes the configured callback
    the trimmed text, the member's display name when one was found and the
    user id otherwise, and the connection's channel. In every other case
    (no options, a failed write, a failed or refused request, a filtered or
    noisy transcript) the callback is not invoked. *)
Theorem callback_only_for_speech {number : Type} `{JsNumber number}
  (guildId userId : string) (chunks : list Buffer) (env : Env number) (w : World) :
  let w' := (processAudio guildId userId chunks env w).2 in
  List.filter isOnTranscription (effects w') = List.filter isOnTranscription (effects w) \/
  exists (options : VoiceListenerOptions) (result : WhisperVerboseResponse number),
    listenerOptions w = Some options /\
    env_whisper env = Response result /\
    lowConfidence result = false /\
    nonEmpty (trim (resp_text result)) = true /\
    isNoiseTranscript (trim (resp_text result)) = false /\
    List.filter isOnTranscription (effects w') =
      List.filter isOnTranscription (effects w) ++
      [OnTranscription (onTranscription options) userId
         (default userId (env_displayName env)) (trim (resp_text result)) guildId
         (default EmptyString (channelId <$> getVoiceConnection guildId w))].
Proof.
  intros w'. subst w'. unfold processAudio.
  destruct (listenerOptions w) as [options |] eqn:Hopts; [| by left].
  destruct (pcmToWav _ _ _ _) as [wav | v]; [| by left].
  destruct (negb (env_writeFile env)); [by left |].
  set (w1 := emit _ w).
  assert (Hw1 : List.filter isOnTranscription (effects w1) =
                List.filter isOnTranscription (effects w)).
  { subst w1. rewrite filter_effects_base. cbn. by rewrite app_nil_r. }
  unfold transcribeAndDeliver.
  destruct (transcribeWithWhisper_effects
              (mkTempFile (tempDir w) guildId userId (env_now env)) env w1)
    as (during & Heff & Hall).
  assert (Hquiet : List.filter isOnTranscription during = []).
  { clear Heff. induction Hall as [| e during [_ He] _ IH]; [done |].
    cbn. by rewrite He. }
  assert (Hw2 : List.filter isOnTranscription
                  (effects (transcribeWithWhisper
                              (mkTempFile (tempDir w) guildId userId (env_now env))
                              env w1).2) =
                List.filter isOnTranscription (effects w)).
  { rewrite Heff, List.filter_app, Hquiet, app_nil_r. exact Hw1. }
  assert (Hresp : forall text w2,
            transcribeWithWhisper (mkTempFile (tempDir w) guildId userId (env_now env))
                                  env w1 = (Returned (Some text), w2) ->
            exists result, env_whisper env = Response result /\
                           lowConfidence result = false /\ text = resp_text result).
  { intros text w2. unfold transcribeWithWhisper.
    destruct (negb (truthy _)); [discriminate |].
    destruct (env_whisper env) as [| | status body | result]; try discriminate.
    destruct (lowConfidence result) eqn:Hlow; [discriminate |].
    intros [= <- _]. by exists result. }
  destruct (transcribeWithWhisper _ env w1) as [[[text |] | e] w2] eqn:Htr;
    cbn [fmap option_fmap option_map snd] in *.
  - destruct (nonEmpty (trim text)) eqn:Hnonempty; cbn [andb].
    + destruct (isNoiseTranscript (trim text)) eqn:Hnoise; cbn [negb].
      * left. cbn [snd]. rewrite filter_effects_base. cbn. by rewrite app_nil_r.
      * right. destruct (Hresp text w2 eq_refl) as (result & Henv & Hlow & ->).
        exists options, result. repeat split; try done.
        unfold getVoiceConnection.
        destruct (env_callback env); cbn [snd];
          rewrite !filter_effects_base, Hw2; cbn; rewrite app_nil_r;
          by destruct (connections w !! guildId).
    + left. cbn [snd]. rewrite filter_effects_base. cbn. by rewrite app_nil_r.
  - left. cbn [snd]. rewrite filter_effects_base. cbn. by rewrite app_nil_r.
  - left. cbn [snd]. rewrite filter_effects_base. cbn. by rewrite app_nil_r.
Qed.

(** ** Listener options are there when they are needed *)

Section ArmedFacts.
Import Armed.
Context {number : Type} `{JsNumber number}.

Lemma speakingStart_keeps_options (g u : string) (now : Z) (w : World) :
  listenerOptions (speakingStart g u now w) = listenerOptions w.
Proof.
  unfold speakingStart. destruct (getVoiceConnection g w) as [c |]; [| done].
  destruct (decide (status c = Destroyed)); [done |].
  generalize (onSpeakingStart c). intros handlers. revert w.
  induction handlers as [| opts handlers IH]; intros w; [done |].
  cbn [fold_left]. rewrite IH.
  by destruct (handleSpeakingStart_keeps_options g u opts now w) as (-> & _).
Qed.

Lemma step_keeps_options_set (e : Event number) (w : World) :
  listenerOptions w <> None -> listenerOptions (step w e) <> None.
Proof.
  intros Hset. destruct e; cbn [step].
  - unfold join, destroyConnection. repeat case_match; by simplify_eq/=.
  - unfold play. repeat case_match; by simplify_eq/=.
  - unfold stop. by case_match.
  - by destruct (leave_keeps_listener_state guildId w) as (-> & _).
  - unfold startListening. repeat case_match; by simplify_eq/=.
  - unfold stopListening. by case_match.
  - by rewrite speakingStart_keeps_options.
  - unfold decoderData. by case_match.
  - by destruct (decoderEnd_keeps_listening id now env w) as (-> & _).
  - unfold captureError. by case_match.
  - unfold captureError. by case_match.
Qed.

Lemma destroyConnection_keeps_handlers (g g' : string) (w : World) (c : VoiceConnection) :
  connections (destroyConnection g w) !! g' = Some c ->
  exists c0, connections w !! g' = Some c0 /\ onSpeakingStart c0 = onSpeakingStart c.
Proof.
  unfold destroyConnection. destruct (destroyUntracks w); cbn.
  - destruct (decide (g = g')) as [<- | Hne].
    + by rewrite lookup_delete_eq.
    + rewrite lookup_delete_ne by done. eauto.
  - destruct (decide (g = g')) as [<- | Hne].
    + rewrite lookup_alter_eq. destruct (connections w !! g) as [c0 |]; [| done].
      cbn. intros [= <-]. eauto.
    + rewrite lookup_alter_ne by done. eauto.
Qed.

Lemma step_quiet (e : Event number) (w : World) :
  quiet w -> optionsPresent (step w e).
Proof.
  intros [Hcap Hhandlers].
  assert (Hinsert : forall g c0 handlers ch st sub (w0 : World),
            connections w0 = connections w -> captures w0 = captures w ->
            (connections w !! g = Some c0 /\ handlers = onSpeakingStart c0 \/ handlers = []) ->
            quiet (set_connections (<[g := mkConnection ch st sub handlers]>
                                      (connections w0)) w0)).
  { intros g c0 handlers ch st sub w0 Hc0 Hcap0 Hh. split; cbn; [congruence |].
    intros g' c'. destruct (decide (g = g')) as [<- | Hne].
    - rewrite lookup_insert_eq. intros [= <-]. cbn.
      destruct Hh as [[Hold ->] | ->]; [by apply (Hhandlers g c0) | done].
    - rewrite lookup_insert_ne by done. rewrite Hc0. apply Hhandlers. }
  assert (Hdestroy : forall g (w0 : World), quiet w0 -> quiet (destroyConnection g w0)).
  { intros g w0 [Hcap0 Hh0]. split.
    - unfold destroyConnection. by destruct (destroyUntracks w0).
    - intros g' c' Hc'.
      destruct (destroyConnection_keeps_handlers g g' w0 c' Hc') as (c0 & Hc0 & <-).
      by apply (Hh0 g' c0). }
  destruct e; cbn [step].
  - right. unfold join.
    destruct env as [| | | | ready]; cbn [snd]; try done.
    assert (Hnew : quiet (set_connections
                            (<[guildId := mkConnection channel Ready None []]>
                               (connections w)) w))
      by (apply (Hinsert guildId (mkConnection channel Ready None []) [] _ _ _ w);
          [done | done | by right]).
    assert (Hfresh : quiet
      (if ready
       then (Returned tt,
             set_connections (<[guildId := mkConnection channel Ready None []]>
                                (connections w)) w)
       else (Thrown JoinFailed,
             destroyConnection guildId
               (set_connections (<[guildId := mkConnection channel Ready None []]>
                                   (connections w)) w))).2).
    { destruct ready; cbn [snd]; [done | by apply Hdestroy]. }
    unfold getVoiceConnection.
    destruct (connections w !! guildId) as [c |] eqn:Hc; [| exact Hfresh].
    destruct (decide (status c = Destroyed)); [exact Hfresh |]. cbn [snd].
    apply (Hinsert guildId c); [done | done | by left].
  - right. unfold play, getVoiceConnection.
    destruct (connections w !! guildId) as [c |] eqn:Hc; [| done].
    destruct (negb _); [done |].
    destruct (players w !! guildId); cbn; [done |].
    split; cbn; [done |].
    intros g' c'. destruct (decide (guildId = g')) as [<- | Hne].
    + rewrite lookup_insert_eq. intros [= <-]. cbn. by apply (Hhandlers guildId c).
    + rewrite lookup_insert_ne by done. apply Hhandlers.
  - right. unfold stop. by case_match.
  - right. unfold leave.
    destruct (players w !! guildId); cbn;
      (destruct (getVoiceConnection guildId _); [by apply Hdestroy | done]).
  - unfold startListening, getVoiceConnection.
    destruct (connections w !! guildId); [| by right].
    left. by destruct mkdirOk.
  - right. unfold stopListening. by case_match.
  - right. unfold speakingStart, getVoiceConnection.
    destruct (connections w !! guildId) as [c |] eqn:Hc; [| done].
    destruct (decide (status c = Destroyed)); [done |].
    by rewrite (Hhandlers guildId c Hc).
  - right. unfold decoderData. by rewrite Hcap, lookup_empty.
  - right. unfold decoderEnd. by rewrite Hcap, lookup_empty.
  - right. unfold captureError. by rewrite Hcap, lookup_empty.
  - right. unfold captureError. by rewrite Hcap, lookup_empty.
Qed.

Lemma run_optionsPresent (events : list (Event number)) (w : World) :
  optionsPresent w -> optionsPresent (run events w).
Proof.
  unfold run. revert w. induction events as [| e events IH]; intros w Hw; [done |].
  cbn [fold_left]. apply IH. destruct Hw as [Hset | Hquiet].
  - left. by apply step_keeps_options_set.
  - by apply step_quiet.
Qed.

End ArmedFacts.

(** X15. In every run of a new manager, whenever a capture is running the
    listener options are set: the early return of [processAudio] for missing
    options is never taken when a capture ends. *)
Theorem capture_implies_options {number : Type} `{JsNumber number}
  (events : list (Event number)) (dir : string) (untrack : bool) (files : gset string)
  (id : nat) (c : Capture) :
  captures (run events (newWorld dir untrack files)) !! id = Some c ->
  is_Some (listenerOptions (run events (newWorld dir untrack files))).
Proof.
  intros Hc.
  destruct (run_optionsPresent events (newWorld dir untrack files)) as [Hset | [Hcap _]].
  - right. split; [done |]. intros g c0. cbn. by rewrite lookup_empty.
  - by destruct (listenerOptions _); [eauto |].
  - by rewrite Hcap, lookup_empty in Hc.
Qed.

Lemma capture_implies_options_witness :
  let w := run Scenario.capturingAlice Scenario.start in
  captures w !! 1%nat =
    Some (mkCapture Scenario.guildA Scenario.alice 0 [Scenario.chunk] 0
                    (captureOpts Scenario.optionsA)) /\
  is_Some (listenerOptions w).
Proof.
  intros w.
  assert (Hc : captures w !! 1%nat =
               Some (mkCapture Scenario.guildA Scenario.alice 0 [Scenario.chunk] 0
                               (captureOpts Scenario.optionsA)))
    by (vm_compute; reflexivity).
  exact (conj Hc (capture_implies_options Scenario.capturingAlice "/tmp/clawdbot-voice"
                    true ∅ 1 _ Hc)).
Defined.

(** ** The module-level manager, once more *)

(** X16. [destroyVoiceManager] ends the singleton: after it [getVoiceManager]
    without a token answers undefined, and with a token it builds a manager
    that is none of those built before and logs in with the new token. *)
Theorem destroy_then_get (st : Singleton.State) (token : string) :
  token <> EmptyString ->
  let st' := Singleton.destroyVoiceManager st in
  Singleton.voiceManager st' = None /\
  Singleton.getVoiceManager None st' = (None, st') /\
  (let m := Singleton.mkInstance (length (Singleton.constructed st)) token in
   Singleton.getVoiceManager (Some token) st' =
     (Some m, Singleton.mkState (Some m) (Singleton.constructed st ++ [m]))).
Proof.
  intros Htoken st'.
  assert (Hnone : Singleton.voiceManager st' = None).
  { subst st'. unfold Singleton.destroyVoiceManager.
    by destruct (Singleton.voiceManager st) eqn:Hm. }
  assert (Hbuilt : Singleton.constructed st' = Singleton.constructed st).
  { subst st'. unfold Singleton.destroyVoiceManager.
    by destruct (Singleton.voiceManager st). }
  split; [exact Hnone |]. split.
  - unfold Singleton.getVoiceManager. by rewrite Hnone.
  - unfold Singleton.getVoiceManager, Singleton.construct. rewrite Hnone. cbn.
    rewrite (proj2 (String.eqb_neq token EmptyString) Htoken). cbn.
    by rewrite Hbuilt.
Qed.

Lemma destroy_then_get_witness :
  let st := (Singleton.initVoiceManager "token-1" true Singleton.initial).2 in
  let m2 := Singleton.mkInstance 1 "token-2" in
  "token-2"%string <> EmptyString /\
  Singleton.getVoiceManager (Some "token-2"%string) (Singleton.destroyVoiceManager st) =
    (Some m2, Singleton.mkState (Some m2) [Singleton.mkInstance 0 "token-1"; m2]).
Proof.
  intros st m2.
  assert (Hne : "token-2"%string <> EmptyString) by discriminate.
  destruct (destroy_then_get st "token-2" Hne) as (_ & _ & Hget).
  split; [exact Hne | exact Hget].
Defined.

(** ** WAV encoder, the whole header *)

Section WavLayout.

Lemma fitsHeader_dec (dataSize sampleRate channels bitsPerSample : Z) :
  {fitsHeader dataSize sampleRate channels bitsPerSample} +
  {~ fitsHeader dataSize sampleRate channels bitsPerSample}.
Proof. unfold fitsHeader. exact (decide _). Qed.

Lemma pcmToWav_returns_inv (pcm : Buffer) (sampleRate channels bitsPerSample : Z)
  (out : Buffer) :
  pcmToWav pcm sampleRate channels bitsPerSample = Ok out ->
  fitsHeader (Z.of_nat (length pcm)) sampleRate channels bitsPerSample /\
  out = canonicalHeader (Z.of_nat (length pcm)) sampleRate channels bitsPerSample ++ pcm.
Proof.
  intros Hout.
  destruct (fitsHeader_dec (Z.of_nat (length pcm)) sampleRate channels bitsPerSample)
    as [Hfits | Hnot].
  - split; [done |]. rewrite (pcmToWav_fits _ _ _ _ Hfits) in Hout. by injection Hout.
  - destruct (pcmToWav_throws _ _ _ _ Hnot) as [v Hv]. congruence.
Qed.

End WavLayout.

(** X17. [pcmToWav] returns exactly when every header field can hold its
    value: the sample rate, the byte rate and the RIFF size in 32 bits, the
    channel count, the bit depth and the block alignment in 16 bits, none of
    them negative. For every other input it throws a range error. *)
Theorem pcmToWav_returns_iff_fits (pcm : Buffer) (sampleRate channels bitsPerSample : Z) :
  ((exists out : Buffer, pcmToWav pcm sampleRate channels bitsPerSample = Ok out) <->
   fitsHeader (Z.of_nat (length pcm)) sampleRate channels bitsPerSample) /\
  ((exists value : Q, pcmToWav pcm sampleRate channels bitsPerSample = RangeError value) <->
   ~ fitsHeader (Z.of_nat (length pcm)) sampleRate channels bitsPerSample).
Proof.
  split; split.
  - intros [out Hout]. by destruct (pcmToWav_returns_inv _ _ _ _ _ Hout).
  - intros Hfits. eexists. by apply pcmToWav_fits.
  - intros [v Hv] Hfits. rewrite (pcmToWav_fits _ _ _ _ Hfits) in Hv. discriminate.
  - apply pcmToWav_throws.
Qed.



(** ** Trimming *)

Section TrimFacts.

Lemma trimStart_startsTrimmed (s : jsstring) : startsTrimmed (trimStart s).
Proof.
  induction s as [| c s IH]; [done |]. cbn. by destruct (isSpace c) eqn:Hc.
Qed.

Lemma trimStart_fixed (s : jsstring) : startsTrimmed s -> trimStart s = s.
Proof. destruct s as [| c s]; [done |]. cbn. by intros ->. Qed.

Lemma trimStart_spaces (ws s : jsstring) :
  Forall (fun c => isSpace c = true) ws -> trimStart (ws ++ s) = trimStart s.
Proof. induction 1 as [| c ws Hc _ IH]; [done |]. cbn. by rewrite Hc. Qed.

(** Appending to a string that does not trim to nothing. *)
Lemma trimStart_app (a b : jsstring) :
  trimStart (a ++ b) =
  match trimStart a with
  | [] => trimStart b
  | _ :: _ => trimStart a ++ b
  end.
Proof.
  induction a as [| c a IH]; [reflexivity |].
  cbn. destruct (isSpace c); [exact IH | done].
Qed.

Lemma trimEnd_startsTrimmed (s : jsstring) : startsTrimmed s -> startsTrimmed (trimEnd s).
Proof.
  destruct s as [| c s]; [done |]. cbn. intros Hc. unfold trimEnd. cbn [rev].
  rewrite trimStart_app.
  destruct (trimStart (rev s)) as [| d r] eqn:Hr.
  - cbn. by rewrite Hc.
  - rewrite rev_app_distr. cbn. done.
Qed.

Lemma trimEnd_idempotent (s : jsstring) : trimEnd (trimEnd s) = trimEnd s.
Proof.
  unfold trimEnd. rewrite rev_involutive.
  by rewrite (trimStart_fixed _ (trimStart_startsTrimmed (rev s))).
Qed.

Lemma trimEnd_spaces (s ws : jsstring) :
  Forall (fun c => isSpace c = true) ws -> trimEnd (s ++ ws) = trimEnd s.
Proof.
  intros Hws. unfold trimEnd. rewrite rev_app_distr, trimStart_spaces; [done |].
  apply Forall_forall. intros c Hc. apply list_elem_of_In, in_rev in Hc.
  rewrite Forall_forall in Hws. by apply Hws, list_elem_of_In.
Qed.

Lemma trimStart_all_spaces (s : jsstring) :
  trimStart s = [] -> Forall (fun c => isSpace c = true) s.
Proof.
  induction s as [| c s IH]; [constructor |]. cbn.
  destruct (isSpace c) eqn:Hc; [| discriminate]. intros Hs. constructor; auto.
Qed.

Lemma trim_idempotent (s : jsstring) : trim (trim s) = trim s.
Proof.
  unfold trim.
  rewrite (trimStart_fixed (trimEnd (trimStart s))).
  - apply trimEnd_idempotent.
  - apply trimEnd_startsTrimmed, trimStart_startsTrimmed.
Qed.

Lemma trim_padding (ws1 s ws2 : jsstring) :
  Forall (fun c => isSpace c = true) ws1 ->
  Forall (fun c => isSpace c = true) ws2 ->
  trim (ws1 ++ s ++ ws2) = trim s.
Proof.
  intros H1 H2. unfold trim. rewrite (trimStart_spaces ws1 _ H1), trimStart_app.
  destruct (trimStart s) as [| c r] eqn:Hs.
  - assert (Hall : trimStart ws2 = []).
    { clear -H2. induction H2 as [| d ws Hd _ IH]; [done |]. cbn. by rewrite Hd. }
    by rewrite Hall.
  - by apply trimEnd_spaces.
Qed.

End TrimFacts.

(** X19. [isNoiseTranscript] looks at the trimmed text only: white space
    around a transcript, of any kind that [trim] strips, never changes the
    verdict, and trimming twice is trimming once. *)
Theorem isNoiseTranscript_ignores_padding (before text after : jsstring) :
  Forall (fun c => isSpace c = true) before ->
  Forall (fun c => isSpace c = true) after ->
  isNoiseTranscript (before ++ text ++ after) = isNoiseTranscript text /\
  isNoiseTranscript (trim text) = isNoiseTranscript text /\
  trim (trim text) = trim text.
Proof.
  intros Hb Ha. unfold isNoiseTranscript.
  by rewrite trim_padding, trim_idempotent.
Qed.

Lemma isNoiseTranscript_ignores_padding_witness :
  let before : jsstring := [0x3000; 0x0A] in
  let after : jsstring := [0x20; 0x09; 0xFEFF] in
  Forall (fun c => isSpace c = true) before /\
  Forall (fun c => isSpace c = true) after /\
  isNoiseTranscript (before ++ ofString "please play the next song" ++ after) =
    isNoiseTranscript (ofString "please play the next song").
Proof.
  intros before after.
  assert (Hb : Forall (fun c => isSpace c = true) before) by (repeat constructor).
  assert (Ha : Forall (fun c => isSpace c = true) after) by (repeat constructor).
  destruct (isNoiseTranscript_ignores_padding before
              (ofString "please play the next song") after Hb Ha) as (Hpad & _).
  exact (conj Hb (conj Ha Hpad)).
Defined.

(** ** Players and connections *)

Section SubscribedFacts.
Import Accessors.
Context {number : Type} `{JsNumber number}.

Lemma subscribed_newWorld (dir : string) (files : gset string) :
  subscribed (newWorld dir true files).
Proof. repeat split; intros *; cbn; by rewrite lookup_empty. Qed.

(** The invariant reads the players, the connections and the flag only. *)
Lemma subscribed_frame (w w' : World) :
  players w' = players w -> connections w' = connections w ->
  destroyUntracks w' = destroyUntracks w ->
  subscribed w -> subscribed w'.
Proof. intros Hp Hc Hd (I1 & I2 & I3). unfold subscribed. by rewrite Hp, Hc, Hd. Qed.

(** Replacing a connection by one with the same subscription and state. *)
Lemma subscribed_update (g ch : string) (handlers : list CaptureOpts)
  (c : VoiceConnection) (w w0 : World) :
  players w0 = players w -> connections w0 = connections w ->
  destroyUntracks w0 = destroyUntracks w ->
  connections w !! g = Some c ->
  subscribed w ->
  subscribed (set_connections
                (<[g := mkConnection ch (status c) (subscription c) handlers]>
                   (connections w0)) w0).
Proof.
  intros Hp Hc Hd Hg (I1 & I2 & I3). repeat split; cbn; rewrite ?Hp, ?Hc, ?Hd; [| | done].
  - intros g' p Hp'. destruct (I1 g' p Hp') as (c' & Hc' & Hsub).
    destruct (decide (g = g')) as [<- | Hne].
    + rewrite lookup_insert_eq. eexists. split; [done |]. cbn. congruence.
    + rewrite lookup_insert_ne by done. eauto.
  - intros g' c'. destruct (decide (g = g')) as [<- | Hne].
    + rewrite lookup_insert_eq. intros [= <-]. cbn. by apply (I2 g c).
    + rewrite lookup_insert_ne by done. apply I2.
Qed.

Lemma join_subscribed (g ch : string) (env : JoinEnv) (w : World) :
  subscribed w -> subscribed (join g ch env w).2.
Proof.
  intros Hw. pose proof Hw as (I1 & I2 & I3). unfold join.
  destruct env as [| | | | ready]; cbn [snd]; try done.
  unfold getVoiceConnection. destruct (connections w !! g) as [c |] eqn:Hc.
  - rewrite decide_False by (rewrite (I2 g c Hc); discriminate). cbn [snd].
    by apply (subscribed_update g ch (onSpeakingStart c) c w w).
  - assert (Hnoplayer : players w !! g = None).
    { destruct (players w !! g) as [p |] eqn:Hp; [| done].
      destruct (I1 g p Hp) as (c & Hc' & _). congruence. }
    destruct ready; cbn [snd].
    + repeat split; cbn; [| | done].
      * intros g' p Hp. destruct (decide (g = g')) as [<- | Hne]; [congruence |].
        rewrite lookup_insert_ne by done. by apply I1.
      * intros g' c'. destruct (decide (g = g')) as [<- | Hne].
        -- rewrite lookup_insert_eq. by intros [= <-].
        -- rewrite lookup_insert_ne by done. apply I2.
    + unfold destroyConnection. cbn. rewrite I3. cbn.
      rewrite delete_insert_eq, delete_id by done. done.
Qed.

Lemma play_subscribed (g f : string) (v : option Q) (w : World) :
  subscribed w -> subscribed (play g f v w).2.
Proof.
  intros Hw. pose proof Hw as (I1 & I2 & I3). unfold play, getVoiceConnection.
  destruct (connections w !! g) as [c |] eqn:Hc; [| done].
  destruct (negb _); [done |].
  destruct (players w !! g) as [p |] eqn:Hp; cbn.
  - repeat split; cbn; [| done | done].
    intros g' p'. destruct (decide (g = g')) as [<- | Hne].
    + rewrite lookup_insert_eq. intros [= <-]. cbn. by apply (I1 g p).
    + rewrite lookup_insert_ne by done. apply I1.
  - repeat split; cbn; [| | done].
    + intros g' p'. destruct (decide (g = g')) as [<- | Hne].
      * rewrite !lookup_insert_eq. intros [= <-]. cbn. eauto.
      * rewrite !lookup_insert_ne by done. apply I1.
    + intros g' c'. destruct (decide (g = g')) as [<- | Hne].
      * rewrite lookup_insert_eq. intros [= <-]. cbn. by apply (I2 g c).
      * rewrite lookup_insert_ne by done. apply I2.
Qed.

Lemma stop_subscribed (g : string) (w : World) :
  subscribed w -> subscribed (stop g w).
Proof.
  intros Hw. pose proof Hw as (I1 & I2 & I3). unfold stop.
  destruct (players w !! g) as [p |] eqn:Hp; [| done].
  repeat split; cbn; [| done | done].
  intros g' p'. destruct (decide (g = g')) as [<- | Hne].
  - rewrite lookup_insert_eq. intros [= <-]. cbn. by apply (I1 g p).
  - rewrite lookup_insert_ne by done. apply I1.
Qed.

Lemma leave_untracked (g : string) (w : World) :
  destroyUntracks w = true ->
  players (leave g w) = delete g (players w) /\
  connections (leave g w) = delete g (connections w) /\
  destroyUntracks (leave g w) = true.
Proof.
  intros I3. unfold leave, destroyConnection, getVoiceConnection.
  destruct (players w !! g) eqn:Hp; cbn;
    destruct (connections w !! g) eqn:Hc; cbn; rewrite ?I3; cbn;
    by rewrite ?(delete_id _ _ Hp), ?(delete_id _ _ Hc).
Qed.

Lemma leave_subscribed (g : string) (w : World) :
  subscribed w -> subscribed (leave g w).
Proof.
  intros (I1 & I2 & I3). destruct (leave_untracked g w I3) as (Hp & Hc & Hd).
  unfold subscribed. rewrite Hp, Hc, Hd. repeat split.
  - intros g' p. destruct (decide (g = g')) as [<- | Hne].
    + by rewrite lookup_delete_eq.
    + rewrite !lookup_delete_ne by done. apply I1.
  - intros g' c. destruct (decide (g = g')) as [<- | Hne].
    + by rewrite lookup_delete_eq.
    + rewrite lookup_delete_ne by done. apply I2.
Qed.

Lemma startListening_subscribed (g : string) (options : VoiceListenerOptions)
  (mkdirOk : bool) (w : World) :
  subscribed w -> subscribed (startListening g options mkdirOk w).2.
Proof.
  intros Hw. unfold startListening, getVoiceConnection.
  destruct (connections w !! g) as [c |] eqn:Hc; [| done].
  destruct mkdirOk; cbn [negb snd].
  - by apply (subscribed_update g (channelId c) _ c w).
  - by apply (subscribed_frame w).
Qed.

Lemma speakingStart_keeps_players (g u : string) (now : Z) (w : World) :
  players (speakingStart g u now w) = players w /\
  connections (speakingStart g u now w) = connections w /\
  destroyUntracks (speakingStart g u now w) = destroyUntracks w.
Proof.
  unfold speakingStart. destruct (getVoiceConnection g w) as [c |]; [| done].
  destruct (decide (status c = Destroyed)); [done |].
  generalize (onSpeakingStart c). intros handlers. revert w.
  induction handlers as [| opts handlers IH]; intros w; [done |].
  cbn [fold_left]. destruct (IH (handleSpeakingStart g u opts now w)) as (-> & -> & ->).
  unfold handleSpeakingStart. repeat case_match; by simplify_eq/=.
Qed.

Lemma decoderEnd_keeps_players (id : nat) (now : Z) (env : Env number) (w : World) :
  players (decoderEnd id now env w) = players w /\
  connections (decoderEnd id now env w) = connections w /\
  destroyUntracks (decoderEnd id now env w) = destroyUntracks w.
Proof.
  unfold decoderEnd. destruct (captures w !! id) as [c |]; [| done].
  set (w1 := set_captures _ _).
  destruct (_ || _); [done |].
  destruct (processAudio_sameButEffects (cap_guild c) (cap_user c) (cap_chunks c) env w1)
    as (Hp & _ & _ & _ & _ & _ & _ & Hc & Hd & _).
  destruct (processAudio _ _ _ env w1) as [[[] | e] w2]; cbn [snd] in *;
    by rewrite ?Hp, ?Hc, ?Hd.
Qed.

Lemma step_subscribed (e : Event number) (w : World) :
  subscribed w -> subscribed (step w e).
Proof.
  intros Hw. destruct e; cbn [step].
  - by apply join_subscribed.
  - by apply play_subscribed.
  - by apply stop_subscribed.
  - by apply leave_subscribed.
  - by apply startListening_subscribed.
  - apply (subscribed_frame w); try done; unfold stopListening; by case_match.
  - destruct (speakingStart_keeps_players guildId userId now w) as (Hp & Hc & Hd).
    by apply (subscribed_frame w).
  - apply (subscribed_frame w); try done; unfold decoderData; by case_match.
  - destruct (decoderEnd_keeps_players id now env w) as (Hp & Hc & Hd).
    by apply (subscribed_frame w).
  - apply (subscribed_frame w); try done; unfold captureError; by case_match.
  - apply (subscribed_frame w); try done; unfold captureError; by case_match.
Qed.

Lemma run_subscribed (events : list (Event number)) (w : World) :
  subscribed w -> subscribed (run events w).
Proof.
  unfold run. revert w. induction events as [| e events IH]; intros w Hw; [done |].
  cbn [fold_left]. by apply IH, step_subscribed.
Qed.

End SubscribedFacts.

(** X20. With a registry that forgets destroyed connections, in every run
    of a new manager a guild that has a player is connected, and its
    connection is subscribed to that very player: what [play] starts is
    always routed to the guild's current connection. *)
Theorem player_is_subscribed {number : Type} `{JsNumber number}
  (events : list (Event number)) (dir : string) (files : gset string)
  (guildId : string) (player : AudioPlayer) :
  players (run events (newWorld dir true files)) !! guildId = Some player ->
  isConnected guildId (run events (newWorld dir true files)) = true /\
  (subscription <$> getVoiceConnection guildId (run events (newWorld dir true files))) =
    Some (Some (player_id player)).
Proof.
  intros Hp.
  destruct (run_subscribed events _ (subscribed_newWorld dir files)) as (I1 & I2 & _).
  destruct (I1 guildId player Hp) as (c & Hc & Hsub).
  unfold isConnected, getVoiceConnection. rewrite Hc. cbn.
  rewrite (I2 guildId c Hc), Hsub. done.
Qed.

Lemma player_is_subscribed_witness :
  let events : list (Event Q) :=
    [ Join Scenario.guildA Scenario.chanX (Reachable true);
      Play Scenario.guildA Session.song None;
      Join Scenario.guildA Scenario.chanY (Reachable true);
      Stop Scenario.guildA ] in
  let w := run events (newWorld "/tmp/clawdbot-voice" true ({[Session.song]})) in
  players w !! Scenario.guildA = Some (mkPlayer 0 None) /\
  isConnected Scenario.guildA w = true /\
  (subscription <$> getVoiceConnection Scenario.guildA w) = Some (Some 0%nat).
Proof.
  intros events w.
  assert (Hp : players w !! Scenario.guildA = Some (mkPlayer 0 None))
    by (vm_compute; reflexivity).
  exact (conj Hp (player_is_subscribed events "/tmp/clawdbot-voice" {[Session.song]}
                    Scenario.guildA (mkPlayer 0 None) Hp)).
Defined.

(** X21. [getActiveVoiceGuildIds] lists, each once, exactly the guilds that
    have a player and are connected, and nothing when there is no manager:
    a guild that was joined, even one that is listening, is not listed until
    something has been played in it. *)
Theorem active_guilds_are_those_with_players (w : World) :
  Accessors.getActiveVoiceGuildIds None = [] /\
  NoDup (Accessors.getActiveVoiceGuildIds (Some w)) /\
  (forall guildId : string,
     guildId ∈ Accessors.getActiveVoiceGuildIds (Some w) <->
     is_Some (players w !! guildId) /\ isConnected guildId w = true) /\
  (forall guildId : string,
     players w !! guildId = None ->
     guildId ∉ Accessors.getActiveVoiceGuildIds (Some w)).
Proof.
  assert (Hiff : forall guildId : string,
            guildId ∈ Accessors.getActiveVoiceGuildIds (Some w) <->
            is_Some (players w !! guildId) /\ isConnected guildId w = true).
  { intros guildId. unfold Accessors.getActiveVoiceGuildIds.
    rewrite list_elem_of_In, filter_In, <- list_elem_of_In.
    rewrite list_elem_of_fmap. split.
    - intros [[[g p] [-> Hin]] Hconn]. apply elem_of_map_to_list in Hin. cbn. eauto.
    - intros [[p Hp] Hconn]. split; [| done]. exists (guildId, p).
      split; [done | by apply elem_of_map_to_list]. }
  split; [done |]. split; [| split; [exact Hiff |]].
  - unfold Accessors.getActiveVoiceGuildIds.
    apply NoDup_ListNoDup, List.NoDup_filter, NoDup_ListNoDup, NoDup_fst_map_to_list.
  - intros guildId Hnone Hin. apply Hiff in Hin as [[p Hp] _]. congruence.
Qed.

(** A guild that listens but has played nothing is not reported. *)
Example listening_guild_is_not_active :
  let w := run Scenario.capturingAlice Scenario.start in
  isConnected Scenario.guildA w = true /\
  isListening Scenario.guildA w = true /\
  Accessors.getActiveVoiceGuildIds (Some w) = [] /\
  Accessors.getActiveVoiceGuildIds (Some Session.played) = [Scenario.guildA].
Proof. vm_compute. repeat split; reflexivity. Qed.

Section DestroyFacts.





End DestroyFacts.


(** Two guilds, one of which has played: [destroy] leaves that one. *)
Example destroy_skips_guild_without_player :
  let w := run [ Join Scenario.guildB Scenario.chanY (Reachable true) : Event Q ]
               Session.played in
  isConnected Scenario.guildA (Accessors.destroy w) = false /\
  isConnected Scenario.guildB (Accessors.destroy w) = true /\
  players (Accessors.destroy w) = ∅.
Proof. vm_compute. repeat split; reflexivity. Qed.

(** ** The voice tool *)

Section ToolFacts.
Import Tool.

Lemma truthy_token (token : option string) :
  truthy token = true ->
  exists t : string, token = Some t /\ t <> EmptyString /\
                     truthy (Some (default EmptyString token)) = true.
Proof.
  destruct token as [t |]; [| discriminate]. cbn. intros Ht.
  exists t. split; [done |]. split; [| done].
  apply negb_true_iff in Ht. by apply String.eqb_neq.
Qed.

Lemma set_singleton_same (st : ToolState) :
  set_singleton (singleton st) (loginResolves st) st = st.
Proof. by destruct st. Qed.

(** With a token there is always a manager to get: the one there is, or a
    new one. Nothing but the module variable and the login changes. *)
Lemma getVoiceManager_some (token : string) (env : ToolEnv) (st : ToolState) :
  token <> EmptyString ->
  exists m : Singleton.Instance,
    (Tool.getVoiceManager token env st).1 = Some m /\
    Singleton.voiceManager (singleton (Tool.getVoiceManager token env st).2) = Some m /\
    world (Tool.getVoiceManager token env st).2 = world st /\
    activeVoiceGuildId (Tool.getVoiceManager token env st).2 = activeVoiceGuildId st /\
    closures (Tool.getVoiceManager token env st).2 = closures st /\
    ttsCalls (Tool.getVoiceManager token env st).2 = ttsCalls st /\
    (is_Some (Singleton.voiceManager (singleton st)) ->
     (Tool.getVoiceManager token env st).2 = st).
Proof.
  intros Htoken. unfold Tool.getVoiceManager, Singleton.getVoiceManager.
  destruct (Singleton.voiceManager (singleton st)) as [m |] eqn:Hm.
  - exists m. cbn. unfold built. rewrite Nat.eqb_refl. cbn.
    rewrite set_singleton_same. repeat split; try done.
  - cbn. rewrite (proj2 (String.eqb_neq token EmptyString) Htoken). cbn.
    eexists. repeat split; try done.
Qed.

Lemma initVoiceManager_existing (token : string) (env : ToolEnv) (st : ToolState)
  (m : Singleton.Instance) :
  Singleton.voiceManager (singleton st) = Some m ->
  Tool.initVoiceManager token env st = (Singleton.Resolved m, st).
Proof.
  intros Hm. unfold Tool.initVoiceManager, Singleton.initVoiceManager. rewrite Hm.
  unfold built. rewrite Nat.eqb_refl. cbn. by rewrite set_singleton_same.
Qed.

Lemma initVoiceManager_new (token : string) (env : ToolEnv) (st : ToolState) :
  Singleton.voiceManager (singleton st) = None ->
  let m := Singleton.mkInstance (length (Singleton.constructed (singleton st))) token in
  Tool.initVoiceManager token env st =
  (if loginOk env then Singleton.Resolved m else Singleton.LoginRejected,
   set_singleton (Singleton.mkState (Some m) (Singleton.constructed (singleton st) ++ [m]))
                 (loginOk env) st).
Proof.
  intros Hm. unfold Tool.initVoiceManager, Singleton.initVoiceManager,
    Singleton.construct. rewrite Hm. cbn.
  assert (Hbuilt : built (singleton st)
            (Singleton.mkState
               (Some (Singleton.mkInstance (length (Singleton.constructed (singleton st)))
                                           token))
               (Singleton.constructed (singleton st) ++
                [Singleton.mkInstance (length (Singleton.constructed (singleton st)))
                                      token])) = true).
  { unfold built. cbn. rewrite length_app. cbn. apply negb_true_iff, Nat.eqb_neq. lia. }
  destruct (loginOk env); cbn; by rewrite Hbuilt.
Qed.

Lemma initVoiceManager_builds (token : string) (env : ToolEnv) (st : ToolState) :
  is_Some (Singleton.voiceManager (singleton (Tool.initVoiceManager token env st).2)) /\
  world (Tool.initVoiceManager token env st).2 = world st /\
  activeVoiceGuildId (Tool.initVoiceManager token env st).2 = activeVoiceGuildId st /\
  closures (Tool.initVoiceManager token env st).2 = closures st.
Proof.
  destruct (Singleton.voiceManager (singleton st)) as [m |] eqn:Hm.
  - rewrite (initVoiceManager_existing token env st m Hm). cbn. rewrite Hm. eauto.
  - rewrite (initVoiceManager_new token env st Hm). cbn. eauto.
Qed.

Lemma managerJoin_singleton (g ch : string) (env : ToolEnv) (st : ToolState) :
  singleton (managerJoin g ch env st).2 = singleton st.
Proof.
  unfold managerJoin. destruct (negb (loginResolves st)); [done |].
  by destruct (join g ch (joinEnv env) (world st)) as [[? | ?] ?].
Qed.

Lemma managerPlay_singleton (g f : string) (v : option Q) (env : ToolEnv)
  (st : ToolState) :
  singleton (managerPlay g f v env st).2 = singleton st.
Proof.
  unfold managerPlay. by destruct (play g f v (world st)) as [[? | ?] ?].
Qed.

Lemma managerStartListening_singleton (g : string) (options : VoiceListenerOptions)
  (env : ToolEnv) (st : ToolState) :
  singleton (managerStartListening g options env st).2 = singleton st.
Proof.
  unfold managerStartListening.
  by destruct (startListening g options (mkdirOk env) (world st)) as [[? | ?] ?].
Qed.

End ToolFacts.

(** X23. The bot token is the environment variable when it is set, even to
    the empty string, else the configured token, else the default account's
    token. When that is missing or empty, every action answers
    [missing_token] and changes nothing: no manager is built and the voice
    layer is not called. *)
Theorem no_token_no_action (params : Tool.VoiceToolParams) (cfg : Tool.MoltbotConfig)
  (agentSessionKey : option string) (env : Tool.ToolEnv) (st : Tool.ToolState) :
  (forall t : string,
     Tool.DISCORD_BOT_TOKEN env = Some t -> Tool.resolveToken env cfg = Some t) /\
  (Tool.DISCORD_BOT_TOKEN env = None ->
   Tool.resolveToken env cfg =
     match Tool.cfg_token cfg with
     | Some t => Some t
     | None => Tool.cfg_defaultAccountToken cfg
     end) /\
  (truthy (Tool.resolveToken env cfg) = false ->
   Tool.handleVoiceAction params cfg agentSessionKey env st =
     (Tool.DError Tool.missing_token, st)).
Proof.
  split; [| split].
  - intros t Ht. unfold Tool.resolveToken. by rewrite Ht.
  - intros Hnone. unfold Tool.resolveToken. rewrite Hnone. cbn.
    by destruct (Tool.cfg_token cfg).
  - intros Hfalsy. unfold Tool.handleVoiceAction. by rewrite Hfalsy.
Qed.

(** An empty environment variable hides a configured token. *)
Example empty_environment_token_hides_config :
  let env := Tool.mkToolEnv (Some EmptyString) None true (Reachable true) true true
                            (Tool.mkTts true None None) in
  let cfg := Tool.mkConfig (Some "configured"%string) None in
  let params := Tool.mkParams Tool.ActStatus None None None None None None in
  Tool.handleVoiceAction params cfg None env (Tool.newTool Scenario.start) =
  (Tool.DError Tool.missing_token, Tool.newTool Scenario.start).
Proof. reflexivity. Qed.

(** X24. With a token, an action that lacks a parameter it requires (the
    guild for every action but status, and the channel for join, the file
    for play, the text for tts; an empty string counts as missing) answers
    [missing_params] and changes nothing: no manager is built. *)
Theorem missing_params_no_action (params : Tool.VoiceToolParams)
  (cfg : Tool.MoltbotConfig) (agentSessionKey : option string) (env : Tool.ToolEnv)
  (st : Tool.ToolState) :
  truthy (Tool.resolveToken env cfg) = true ->
  match Tool.action params with
  | Tool.ActJoin =>
      truthy (Tool.guildId params) = false \/ truthy (Tool.channel params) = false
  | Tool.ActPlay =>
      truthy (Tool.guildId params) = false \/ truthy (Tool.filePath params) = false
  | Tool.ActTts =>
      truthy (Tool.guildId params) = false \/ truthy (Tool.text params) = false
  | Tool.ActStop | Tool.ActLeave | Tool.ActListen | Tool.ActStopListen =>
      truthy (Tool.guildId params) = false
  | Tool.ActStatus | Tool.ActOther => False
  end ->
  Tool.handleVoiceAction params cfg agentSessionKey env st =
    (Tool.DError Tool.missing_params, st).
Proof.
  intros Htoken Hmissing. unfold Tool.handleVoiceAction. rewrite Htoken. cbn [negb].
  destruct (Tool.action params); try done;
    try (destruct Hmissing as [-> | ->]; cbn; by rewrite ?orb_true_r);
    by rewrite Hmissing.
Qed.

Lemma missing_params_no_action_witness :
  let env := Tool.mkToolEnv (Some "bot-token"%string) None true (Reachable true) true true
                            (Tool.mkTts true None None) in
  let cfg := Tool.mkConfig None None in
  let params := Tool.mkParams Tool.ActJoin (Some "guildA"%string) (Some EmptyString)
                              None None None None in
  truthy (Tool.resolveToken env cfg) = true /\
  Tool.handleVoiceAction params cfg None env (Tool.newTool Scenario.start) =
    (Tool.DError Tool.missing_params, Tool.newTool Scenario.start).
Proof.
  intros env cfg params.
  assert (Ht : truthy (Tool.resolveToken env cfg) = true) by reflexivity.
  split; [exact Ht |].
  apply (missing_params_no_action params cfg None env (Tool.newTool Scenario.start) Ht).
  right. reflexivity.
Defined.

(** The manager's calls leave the module variable alone. *)
Ltac tool_singleton :=
  repeat match goal with
  | H : Tool.managerJoin ?g ?ch ?env ?s = (_, ?s') |- _ =>
      let Hs := fresh "Hs" in
      assert (Hs : Tool.singleton s' = Tool.singleton s)
        by (rewrite <- (managerJoin_singleton g ch env s), H; reflexivity);
      clear H
  | H : Tool.managerPlay ?g ?f ?v ?env ?s = (_, ?s') |- _ =>
      let Hs := fresh "Hs" in
      assert (Hs : Tool.singleton s' = Tool.singleton s)
        by (rewrite <- (managerPlay_singleton g f v env s), H; reflexivity);
      clear H
  | H : Tool.managerStartListening ?g ?o ?env ?s = (_, ?s') |- _ =>
      let Hs := fresh "Hs" in
      assert (Hs : Tool.singleton s' = Tool.singleton s)
        by (rewrite <- (managerStartListening_singleton g o env s), H; reflexivity);
      clear H
  end.

(** X25. [handleVoiceAction] never answers "not initialized", and [play]
    never answers [not_connected]: with a token, [getVoiceManager] builds
    the manager when there is none, so those branches are not reached (a
    [play] without a connection answers with the error the manager throws).
    After every call that got past the token and parameter checks of a known
    action, the module has a manager. *)
Theorem manager_is_always_built (params : Tool.VoiceToolParams)
  (cfg : Tool.MoltbotConfig) (agentSessionKey : option string) (env : Tool.ToolEnv)
  (st : Tool.ToolState) :
  let r := Tool.handleVoiceAction params cfg agentSessionKey env st in
  r.1 <> Tool.DNotInitialized /\
  (Tool.action params = Tool.ActPlay -> r.1 <> Tool.DError Tool.not_connected) /\
  (r.1 <> Tool.DError Tool.missing_token ->
   r.1 <> Tool.DError Tool.missing_params ->
   r.1 <> Tool.DError Tool.unknown_action ->
   is_Some (Singleton.voiceManager (Tool.singleton r.2))).
Proof.
  cbn zeta. unfold Tool.handleVoiceAction.
  destruct (truthy (Tool.resolveToken env cfg)) eqn:Htoken; cbn [negb];
    [| by repeat split].
  destruct (truthy_token _ Htoken) as (t & -> & Ht & _).
  destruct (getVoiceManager_some t env st Ht) as (m & Hm & Hsome & _).
  pose proof (initVoiceManager_builds t env st) as (Hinit & _).
  destruct (Tool.action params);
    repeat case_match; simplify_eq/=; tool_singleton;
    repeat match goal with
      | H : Tool.getVoiceManager _ _ _ = _ |- _ => rewrite H in Hm, Hsome; clear H
      | H : Tool.initVoiceManager _ _ _ = _ |- _ => rewrite H in Hinit; clear H
      end; simplify_eq/=;
    (split; [done |]); (split; [done |]); intros ? ? ?; try done;
    repeat match goal with Hs : Tool.singleton _ = _ |- _ => rewrite Hs; clear Hs end;
    eauto.
Qed.

(** X26. The [leave] action answers with the guild, makes the manager leave
    it and clears the active voice guild, whichever guild was active and
    whether or not the bot was connected there. *)
Theorem leave_action_clears_active_guild (params : Tool.VoiceToolParams)
  (cfg : Tool.MoltbotConfig) (agentSessionKey : option string) (env : Tool.ToolEnv)
  (st : Tool.ToolState) :
  truthy (Tool.resolveToken env cfg) = true ->
  Tool.action params = Tool.ActLeave ->
  truthy (Tool.guildId params) = true ->
  let g := default EmptyString (Tool.guildId params) in
  let r := Tool.handleVoiceAction params cfg agentSessionKey env st in
  r.1 = Tool.DGuild g /\
  Tool.getActiveVoiceGuild r.2 = None /\
  Tool.world r.2 = leave g (Tool.world st) /\
  Tool.closures r.2 = Tool.closures st.
Proof.
  intros Htoken Haction Hguild. cbn zeta. unfold Tool.handleVoiceAction.
  rewrite Htoken, Haction, Hguild. cbn [negb].
  destruct (truthy_token _ Htoken) as (t & -> & Ht & _).
  change (default EmptyString (Some t)) with t.
  destruct (getVoiceManager_some t env st Ht) as (m & Hm & _ & Hw & _ & Hc & _).
  destruct (Tool.getVoiceManager t env st) as [mg st1]. cbn in Hm, Hw, Hc. subst mg.
  unfold Tool.getActiveVoiceGuild. cbn. by rewrite Hw, Hc.
Qed.

Lemma leave_action_clears_active_guild_witness :
  let r := Tool.handleVoiceAction ToolSession.leaveA ToolSession.cfg None ToolSession.env
                                  ToolSession.joined in
  r.1 = Tool.DGuild Scenario.guildA /\
  Tool.getActiveVoiceGuild r.2 = None /\
  Tool.world r.2 = leave Scenario.guildA (Tool.world ToolSession.joined) /\
  Tool.closures r.2 = Tool.closures ToolSession.joined.
Proof.
  exact (leave_action_clears_active_guild ToolSession.leaveA ToolSession.cfg None
           ToolSession.env ToolSession.joined eq_refl eq_refl eq_refl).
Defined.

Section ToolJoin.

Lemma join_reachable (g ch : string) (w : World) :
  (join g ch (Reachable true) w).1 = Returned tt /\
  listenerOptions (join g ch (Reachable true) w).2 = listenerOptions w /\
  activeListeners (join g ch (Reachable true) w).2 = activeListeners w /\
  isConnected g (join g ch (Reachable true) w).2 = true.
Proof.
  unfold join, isConnected, getVoiceConnection.
  destruct (connections w !! g) as [c |] eqn:Hc;
    [destruct (decide (status c = Destroyed)) as [Hd | Hd] |];
    cbn; rewrite lookup_insert_eq; cbn; repeat split; try done.
  by rewrite bool_decide_eq_false_2.
Qed.

Lemma startListening_connected (g : string) (options : VoiceListenerOptions) (w : World) :
  isConnected g w = true ->
  (startListening g options true w).1 = Returned tt /\
  listenerOptions (startListening g options true w).2 = Some options /\
  activeListeners (startListening g options true w).2 = activeListeners w /\
  isConnected g (startListening g options true w).2 = true.
Proof.
  unfold startListening, isConnected, getVoiceConnection.
  destruct (connections w !! g) as [c |] eqn:Hc; [| discriminate].
  intros Hlive. cbn. rewrite lookup_insert_eq. cbn. done.
Qed.

End ToolJoin.

(** X27. A [join] whose login, channel and temp directory are fine answers
    [listening] exactly when [OPENAI_API_KEY] is set and not empty, and
    leaves the guild connected. With the key it makes the guild the active
    voice guild and installs listener options with a new callback for the
    session [agent:main:discord:voice:<channel>], that key and the language
    asked for, [ja] by default; yet [isListening] is true afterwards only
    if the guild already had a listener set, so a status call can still
    answer false. Without the key none of these change. *)
Theorem join_action_listens (params : Tool.VoiceToolParams)
  (cfg : Tool.MoltbotConfig) (agentSessionKey : option string) (env : Tool.ToolEnv)
  (st : Tool.ToolState) :
  truthy (Tool.resolveToken env cfg) = true ->
  Tool.action params = Tool.ActJoin ->
  truthy (Tool.guildId params) = true ->
  truthy (Tool.channel params) = true ->
  match Singleton.voiceManager (Tool.singleton st) with
  | Some _ => Tool.loginResolves st
  | None => Tool.loginOk env
  end = true ->
  Tool.joinEnv env = Reachable true ->
  Tool.mkdirOk env = true ->
  let g := default EmptyString (Tool.guildId params) in
  let ch := default EmptyString (Tool.channel params) in
  let r := Tool.handleVoiceAction params cfg agentSessionKey env st in
  r.1 = Tool.DJoined g ch (truthy (Tool.OPENAI_API_KEY env)) /\
  isConnected g (Tool.world r.2) = true /\
  (truthy (Tool.OPENAI_API_KEY env) = true ->
   Tool.getActiveVoiceGuild r.2 = Some g /\
   Tool.closures r.2 =
     Tool.closures st ++ [Tool.VoiceSessionClosure ("agent:main:discord:voice:" ++ ch)] /\
   listenerOptions (Tool.world r.2) =
     Some (mkOptions (length (Tool.closures st)) None None (Tool.OPENAI_API_KEY env)
                     (Some (default "ja"%string (Tool.language params)))) /\
   isListening g (Tool.world r.2) =
     bool_decide (is_Some (activeListeners (Tool.world st) !! g))) /\
  (truthy (Tool.OPENAI_API_KEY env) = false ->
   Tool.getActiveVoiceGuild r.2 = Tool.getActiveVoiceGuild st /\
   Tool.closures r.2 = Tool.closures st /\
   listenerOptions (Tool.world r.2) = listenerOptions (Tool.world st)).
Proof.
  intros Htoken Haction Hguild Hchannel Hlogin Hjoin Hmkdir. cbn zeta.
  destruct (truthy_token _ Htoken) as (t & Hres & Ht & _).
  set (g := default EmptyString (Tool.guildId params)).
  set (ch := default EmptyString (Tool.channel params)).
  assert (Hinit : exists (m : Singleton.Instance) (s : Singleton.State),
            Tool.initVoiceManager t env st =
              (Singleton.Resolved m, Tool.set_singleton s true st)).
  { destruct (Singleton.voiceManager (Tool.singleton st)) as [m |] eqn:Hm.
    - exists m, (Tool.singleton st).
      rewrite (initVoiceManager_existing t env st m Hm), <- Hlogin.
      by rewrite set_singleton_same.
    - eexists _, _. rewrite (initVoiceManager_new t env st Hm), Hlogin. reflexivity. }
  destruct Hinit as (m & s & Hinit).
  destruct (join_reachable g ch (Tool.world st)) as (Hret & Hopts & Hact & Hconn).
  unfold Tool.handleVoiceAction.
  rewrite Htoken, Haction, Hguild, Hchannel, Hres. cbn [negb orb].
  change (default EmptyString (Some t)) with t. fold g ch.
  rewrite Hinit. unfold Tool.managerJoin. cbn [Tool.loginResolves Tool.set_singleton negb].
  rewrite Hjoin. change (Tool.world (Tool.set_singleton s true st)) with (Tool.world st).
  destruct (join g ch (Reachable true) (Tool.world st)) as [o w1]. cbn in Hret, Hopts, Hact, Hconn.
  subst o.
  destruct (truthy (Tool.OPENAI_API_KEY env)) eqn:Hkey.
  - unfold Tool.managerStartListening. rewrite Hmkdir.
    cbn [Tool.world Tool.addClosure Tool.setActiveVoiceGuild Tool.set_world
         Tool.closures Tool.set_singleton].
    match goal with
    | |- context [startListening g ?o true w1] =>
        destruct (startListening_connected g o w1 Hconn) as (Hret2 & Hopts2 & Hact2 & Hconn2);
        destruct (startListening g o true w1) as [o2 w2]
    end.
    cbn in Hret2, Hopts2, Hact2, Hconn2. subst o2. cbn.
    split; [done |]. split; [done |]. split; [| done]. intros _.
    split; [done |]. split; [done |]. split; [done |].
    unfold isListening. rewrite Hopts2, Hact2, Hact.
    by rewrite bool_decide_eq_true_2.
  - cbn. split; [done |]. split; [done |]. split; [done |]. intros _. done.
Qed.

Lemma join_action_listens_witness :
  let r := Tool.handleVoiceAction ToolSession.joinA ToolSession.cfg None ToolSession.env
                                  ToolSession.start in
  r.1 = Tool.DJoined Scenario.guildA Scenario.chanX true /\
  isConnected Scenario.guildA (Tool.world r.2) = true /\
  Tool.getActiveVoiceGuild r.2 = Some Scenario.guildA /\
  isListening Scenario.guildA (Tool.world r.2) = false.
Proof.
  pose proof (join_action_listens ToolSession.joinA ToolSession.cfg None ToolSession.env
                ToolSession.start eq_refl eq_refl eq_refl eq_refl eq_refl eq_refl eq_refl)
    as (Hreply & Hconn & Hkey & _).
  destruct (Hkey eq_refl) as (Hactive & _ & _ & Hlistening).
  exact (conj Hreply (conj Hconn (conj Hactive Hlistening))).
Defined.

(** X28. When the login of the manager that a [join] builds is rejected,
    the join answers with that error, the voice state is untouched and the
    manager stays in the module variable. As its client never becomes
    ready, every later [join] answers with the same error and changes
    nothing, whatever the environment would answer by then: no other
    manager is built. *)
Theorem rejected_login_is_kept (params : Tool.VoiceToolParams)
  (cfg : Tool.MoltbotConfig) (agentSessionKey : option string) (env : Tool.ToolEnv)
  (st : Tool.ToolState) :
  truthy (Tool.resolveToken env cfg) = true ->
  Tool.action params = Tool.ActJoin ->
  truthy (Tool.guildId params) = true ->
  truthy (Tool.channel params) = true ->
  Singleton.voiceManager (Tool.singleton st) = None ->
  Tool.loginOk env = false ->
  let r := Tool.handleVoiceAction params cfg agentSessionKey env st in
  r.1 = Tool.DThrown Tool.LoginRejected /\
  Tool.world r.2 = Tool.world st /\
  is_Some (Singleton.voiceManager (Tool.singleton r.2)) /\
  forall (params' : Tool.VoiceToolParams) (key' : option string) (env' : Tool.ToolEnv),
    truthy (Tool.resolveToken env' cfg) = true ->
    Tool.action params' = Tool.ActJoin ->
    truthy (Tool.guildId params') = true ->
    truthy (Tool.channel params') = true ->
    Tool.handleVoiceAction params' cfg key' env' r.2 =
      (Tool.DThrown Tool.LoginRejected, r.2).
Proof.
  intros Htoken Haction Hguild Hchannel Hnone Hlogin. cbn zeta.
  destruct (truthy_token _ Htoken) as (t & Hres & Ht & _).
  assert (Hcall : exists m : Singleton.Instance,
            Tool.handleVoiceAction params cfg agentSessionKey env st =
            (Tool.DThrown Tool.LoginRejected,
             Tool.set_singleton
               (Singleton.mkState (Some m)
                  (Singleton.constructed (Tool.singleton st) ++ [m])) false st)).
  { eexists. unfold Tool.handleVoiceAction.
    rewrite Htoken, Haction, Hguild, Hchannel, Hres. cbn [negb orb].
    change (default EmptyString (Some t)) with t.
    rewrite (initVoiceManager_new t env st Hnone), Hlogin. reflexivity. }
  destruct Hcall as [m ->]. cbn [fst snd].
  split; [done |]. split; [done |]. split; [cbn; eauto |].
  intros params' key' env' Htoken' Haction' Hguild' Hchannel'.
  unfold Tool.handleVoiceAction.
  rewrite Htoken', Haction', Hguild', Hchannel'. cbn [negb orb].
  destruct (truthy_token _ Htoken') as (t' & -> & Ht' & _).
  change (default EmptyString (Some t')) with t'.
  erewrite initVoiceManager_existing by (cbn; reflexivity).
  reflexivity.
Qed.

Lemma rejected_login_is_kept_witness :
  let r := Tool.handleVoiceAction ToolSession.joinA ToolSession.cfg None
                                  ToolSession.offline ToolSession.start in
  r.1 = Tool.DThrown Tool.LoginRejected /\
  Tool.handleVoiceAction ToolSession.joinA ToolSession.cfg None ToolSession.env r.2 =
    (Tool.DThrown Tool.LoginRejected, r.2).
Proof.
  pose proof (rejected_login_is_kept ToolSession.joinA ToolSession.cfg None
                ToolSession.offline ToolSession.start
                eq_refl eq_refl eq_refl eq_refl eq_refl eq_refl)
    as (Hreply & _ & _ & Hlater).
  exact (conj Hreply
           (Hlater ToolSession.joinA None ToolSession.env eq_refl eq_refl eq_refl eq_refl)).
Defined.



(** X30. The [listen] action never changes the active voice guild. It
    answers [not_connected] when the guild is not connected and
    [missing_api_key] when [OPENAI_API_KEY] is unset or empty, and then
    leaves the voice state and the callbacks as they were. Otherwise it
    installs listener options with a new callback for the agent's session,
    the key and the language asked for, [ja] by default, and answers with
    that language. *)
Theorem listen_action_guards (params : Tool.VoiceToolParams)
  (cfg : Tool.MoltbotConfig) (agentSessionKey : option string) (env : Tool.ToolEnv)
  (st : Tool.ToolState) :
  truthy (Tool.resolveToken env cfg) = true ->
  Tool.action params = Tool.ActListen ->
  truthy (Tool.guildId params) = true ->
  let g := default EmptyString (Tool.guildId params) in
  let lang := default "ja"%string (Tool.language params) in
  let r := Tool.handleVoiceAction params cfg agentSessionKey env st in
  Tool.getActiveVoiceGuild r.2 = Tool.getActiveVoiceGuild st /\
  (isConnected g (Tool.world st) = false ->
   r.1 = Tool.DError Tool.not_connected /\
   Tool.world r.2 = Tool.world st /\ Tool.closures r.2 = Tool.closures st) /\
  (isConnected g (Tool.world st) = true ->
   truthy (Tool.OPENAI_API_KEY env) = false ->
   r.1 = Tool.DError Tool.missing_api_key /\
   Tool.world r.2 = Tool.world st /\ Tool.closures r.2 = Tool.closures st) /\
  (isConnected g (Tool.world st) = true ->
   truthy (Tool.OPENAI_API_KEY env) = true ->
   Tool.mkdirOk env = true ->
   r.1 = Tool.DListen g true (Some lang) /\
   Tool.closures r.2 = Tool.closures st ++ [Tool.AgentSessionClosure agentSessionKey] /\
   listenerOptions (Tool.world r.2) =
     Some (mkOptions (length (Tool.closures st)) None None (Tool.OPENAI_API_KEY env)
                     (Some lang))).
Proof.
  intros Htoken Haction Hguild. cbn zeta.
  destruct (truthy_token _ Htoken) as (tok & Hres & Htok & _).
  set (g := default EmptyString (Tool.guildId params)).
  destruct (getVoiceManager_some tok env st Htok)
    as (m & Hm & _ & Hw & Hactive & Hclosures & _).
  unfold Tool.handleVoiceAction.
  rewrite Htoken, Haction, Hguild, Hres. cbn [negb orb].
  change (default EmptyString (Some tok)) with tok. fold g.
  destruct (Tool.getVoiceManager tok env st) as [mg st1].
  cbn in Hm, Hw, Hactive, Hclosures. subst mg.
  rewrite Hw, Hclosures. unfold Tool.getActiveVoiceGuild.
  destruct (isConnected g (Tool.world st)) eqn:Hconn; cbn [negb].
  - destruct (truthy (Tool.OPENAI_API_KEY env)) eqn:Hkey; cbn [negb].
    + unfold Tool.managerStartListening.
      change (Tool.world (Tool.addClosure ?c st1)) with (Tool.world st1). rewrite Hw.
      match goal with
      | |- context [startListening g ?o _ _] =>
          pose proof (startListening_connected g o (Tool.world st) Hconn)
            as (Hret & Hopts & _)
      end.
      split.
      * destruct (startListening g _ (Tool.mkdirOk env) _) as [[? | ?] ?]; cbn; by rewrite Hactive.
      * split; [done |]. split; [done |]. intros _ _ Hmkdir. rewrite Hmkdir.
        destruct (startListening _ _ _ _) as [o w1]. cbn in Hret, Hopts. subst o.
        cbn. by rewrite Hclosures.
    + cbn. by rewrite Hw, Hclosures, Hactive.
  - cbn. by rewrite Hw, Hclosures, Hactive.
Qed.

Lemma listen_action_guards_witness :
  let r := Tool.handleVoiceAction ToolSession.listenA ToolSession.cfg
                                  (Some "agent:main"%string) ToolSession.env
                                  ToolSession.joined in
  r.1 = Tool.DListen Scenario.guildA true (Some "en"%string) /\
  Tool.getActiveVoiceGuild r.2 = Some Scenario.guildA.
Proof.
  pose proof (listen_action_guards ToolSession.listenA ToolSession.cfg
                (Some "agent:main"%string) ToolSession.env ToolSession.joined
                eq_refl eq_refl eq_refl) as (Hactive & _ & _ & Hlisten).
  assert (Hconn : isConnected Scenario.guildA (Tool.world ToolSession.joined) = true)
    by (vm_compute; reflexivity).
  destruct (Hlisten Hconn eq_refl eq_refl) as (Hreply & _).
  split; [exact Hreply |]. rewrite Hactive. vm_compute. reflexivity.
Defined.
